(** * Gmail client (gmail_service.py, oauth_service.py, app.py)

    A shallow embedding of the mail-access core of the repository: the two
    transports (IMAP/SMTP with an App Password, Gmail API with OAuth
    credentials), the credential (de)serialisation, and the pagination and
    compose logic of the Streamlit pages, followed by the properties the
    specification states about them.

    Conventions.
    - A Python [int] is a [Z]; [//] is [Z.div] (both round towards minus
      infinity for a positive divisor).
    - A Python [str] or [bytes] is a [string]; [len], slicing, [in] and
      [lower] are the functions of module [Py].  A character outside ASCII
      appears as its UTF-8 bytes.  [Py.upper] and [Py.lower] act on the
      ASCII letters; [str.upper()], which follows the Unicode tables, is
      taken from the record [Unicode].
    - A [dict] with string keys is a [gmap string _]; a list is a [list].
    - Calls to the mail provider go through the monad [M], which threads the
      log of the effects performed and propagates exceptions. *)

From Stdlib Require Import ZArith Lia String Ascii List Bool.
From stdpp Require Import base option list gmap strings pretty.

Local Open Scope string_scope.
Local Open Scope list_scope.

(** ** Python primitives *)

Module Py.

(** Normalisation of one bound of [l[start:stop]] (step 1) against the
    length [len]: a negative bound counts from the end, and the result is
    clamped into [0, len]; a missing bound takes its default. *)
Definition slice_bound (len dflt : Z) (i : option Z) : Z :=
  match i with
  | None => dflt
  | Some i => if (i <? 0)%Z then Z.max (i + len) 0 else Z.min i len
  end.

(** [l[start:stop]] *)
Definition slice {A} (l : list A) (start stop : option Z) : list A :=
  let len := Z.of_nat (length l) in
  let lo := slice_bound len 0 start in
  let hi := slice_bound len len stop in
  take (Z.to_nat (hi - lo)) (drop (Z.to_nat lo) l).

(** [len(s)] and [s[start:stop]] on strings *)
Definition len (s : string) : Z := Z.of_nat (String.length s).

Definition str_slice (s : string) (start stop : option Z) : string :=
  string_of_list_ascii (slice (list_ascii_of_string s) start stop).

(** [needle in hay] *)
Fixpoint str_in (needle hay : string) : bool :=
  String.prefix needle hay
  || match hay with
     | EmptyString => false
     | String _ hay' => str_in needle hay'
     end.

Definition upper_char (c : ascii) : ascii :=
  let n := N_of_ascii c in
  if ((97 <=? n) && (n <=? 122))%N then ascii_of_N (n - 32) else c.

Definition lower_char (c : ascii) : ascii :=
  let n := N_of_ascii c in
  if ((65 <=? n) && (n <=? 90))%N then ascii_of_N (n + 32) else c.

Fixpoint str_map (f : ascii -> ascii) (s : string) : string :=
  match s with
  | EmptyString => EmptyString
  | String c s' => String (f c) (str_map f s')
  end.

Definition upper : string -> string := str_map upper_char.
Definition lower : string -> string := str_map lower_char.

(** Truth value of a string: the empty string is falsy. *)
Definition truthy (s : string) : bool :=
  match s with EmptyString => false | _ => true end.

(** [s or dflt] for a string or [None]: [None] and the empty string are
    both replaced. *)
Definition or_else (s : option string) (dflt : string) : string :=
  match s with
  | Some s => if truthy s then s else dflt
  | None => dflt
  end.

(** All the characters are ASCII. *)
Fixpoint is_ascii (s : string) : bool :=
  match s with
  | EmptyString => true
  | String c s' => (N_of_ascii c <? 128)%N && is_ascii s'
  end.

End Py.

(** ** Message bodies: the truncation shared by both transports

    [body[:500] + "..." if len(body) > 500 else body], the last line of
    [get_email_body] and the ['body'] entry of [fetch_emails_oauth]. *)

Definition truncate_body (body : string) : string :=
  if (500 <? Py.len body)%Z
  then Py.str_slice body None (Some 500%Z) +:+ "..."
  else body.

(** ** Credential model (oauth_service.py) *)

(** The Python values the credential fields and the session dictionary
    hold. *)
Inductive value :=
| VNone
| VStr (s : string)
| VList (l : list string).

(** [bool(v)] *)
Definition value_truthy (v : value) : bool :=
  match v with
  | VNone => false
  | VStr s => Py.truthy s
  | VList l => match l with [] => false | _ => true end
  end.

(** [list(v)] for a truthy [v]: a list is copied, a string gives its
    characters. *)
Definition value_list (v : value) : list string :=
  match v with
  | VNone => []
  | VStr s => (fun c => String c EmptyString) <$> list_ascii_of_string s
  | VList l => l
  end.

(** [google.oauth2.credentials.Credentials]: the constructor stores its
    arguments, the properties read them back. *)
Record Credentials := mkCredentials {
  token : value;
  refresh_token : value;
  token_uri : value;
  client_id : value;
  client_secret : value;
  scopes : value
}.

Definition credentials_to_dict (credentials : Credentials) : gmap string value :=
  <["token" := token credentials]>
  (<["refresh_token" := refresh_token credentials]>
  (<["token_uri" := token_uri credentials]>
  (<["client_id" := client_id credentials]>
  (<["client_secret" := client_secret credentials]>
  (<["scopes" := if value_truthy (scopes credentials)
                 then VList (value_list (scopes credentials))
                 else VList []]> ∅))))).

(** [d.get(k)] and [d.get(k, dflt)] *)
Definition dict_get (d : gmap string value) (k : string) (dflt : value) : value :=
  default dflt (d !! k).

(** [creds_dict['token']] raises [KeyError] when the key is missing: the
    result is [None] then. *)
Definition credentials_from_dict (creds_dict : gmap string value) : option Credentials :=
  tok ← creds_dict !! "token";
  Some {| token := tok;
          refresh_token := dict_get creds_dict "refresh_token" VNone;
          token_uri := dict_get creds_dict "token_uri" (VStr "https://oauth2.googleapis.com/token");
          client_id := dict_get creds_dict "client_id" VNone;
          client_secret := dict_get creds_dict "client_secret" VNone;
          scopes := dict_get creds_dict "scopes" VNone |}.

(** ** Effects: exceptions and the log of provider calls *)

Inductive exn_class :=
| IMAP4_error              (* imaplib.IMAP4.error and its subclasses *)
| SMTPAuthenticationError
| SMTPRecipientsRefused
| HttpError
| KeyError
| OtherException.          (* any other subclass of Exception *)

(** An exception: its class and [str(e)]. *)
Record exn := mkExn { exn_kind : exn_class; exn_str : string }.

Inductive outcome (A : Type) :=
| Ret (a : A)
| Raise (e : exn).
Arguments Ret {A} a.
Arguments Raise {A} e.

(** What the program does to the outside: calls to the IMAP server, the
    SMTP server and the Gmail API, and what it shows to the user. *)
Inductive event :=
| ImapConnect (host : string)
| ImapLogin (user pw : string)
| ImapSelect (mailbox : string)
| ImapSearch (criterion : string)
| ImapFetch (email_id : string)
| ImapLogout
| SmtpConnect (host : string) (port : Z)
| SmtpStarttls
| SmtpLogin (user pw : string)
| SmtpSendMessage (from to subject body : string)
| SmtpQuit
| ApiBuild (cred : Credentials)
| ApiList (max_results : Z)
| ApiGet (msg_id : string)
| ApiSend (raw : string)
| UiError (msg : string)
| UiSuccess (msg : string)
| UiInfo (msg : string)
| UiBalloons.

(** A computation reads the log so far and returns a value or raises,
    together with the extended log. *)
Definition M (A : Type) : Type := list event -> outcome A * list event.

Definition ret {A} (a : A) : M A := fun log => (Ret a, log).

Definition raise {A} (e : exn) : M A := fun log => (Raise e, log).

Definition bind {A B} (m : M A) (k : A -> M B) : M B :=
  fun log =>
    match m log with
    | (Ret a, log') => k a log'
    | (Raise e, log') => (Raise e, log')
    end.

(** [try: m except Exception as e: h e] *)
Definition try_except {A} (m : M A) (h : exn -> M A) : M A :=
  fun log =>
    match m log with
    | (Ret a, log') => (Ret a, log')
    | (Raise e, log') => h e log'
    end.

(** A computation of the program itself, which may raise. *)
Definition lift {A} (r : outcome A) : M A := fun log => (r, log).

(** One call to the outside: it is logged, and answers [r]. *)
Definition perform {A} (ev : event) (r : outcome A) : M A :=
  fun log => (r, log ++ [ev]).

Notation "'let*' x ':=' m 'in' k" := (bind m (fun x => k))
  (at level 10, x pattern, m at level 100, k at level 200).

Definition is_network (ev : event) : bool :=
  match ev with
  | UiError _ | UiSuccess _ | UiInfo _ | UiBalloons => false
  | _ => true
  end.

(** ** The mail provider and the email library, as the code sees them *)

(** One element of the [msg_data] list that [imap.fetch] returns. *)
Inductive response_part :=
| RespTuple (envelope raw : string)
| RespBytes (b : string).

(** A header of a Gmail API message, [{'name': ..., 'value': ...}]. *)
Record ApiHeader := mkApiHeader { h_name : string; h_value : string }.

(** A Gmail API message resource: the ['payload'] entry (when present) with
    its ['headers'] entry (when present), and the ['snippet'] entry. *)
Record ApiMessage := mkApiMessage {
  api_payload : option (option (list ApiHeader));
  api_snippet : option string
}.

(** The answers of the servers.  [imap_search] gives the status and
    [messages[0].split()]; [api_list] gives the ['messages'] entry of the
    response (each reference reduced to its ['id']), when present. *)
Record Provider := mkProvider {
  imap_connect : string -> outcome unit;
  imap_login : string -> string -> outcome unit;
  imap_select : string -> outcome unit;
  imap_search : string -> outcome (string * list string);
  imap_fetch : string -> outcome (string * list response_part);
  imap_logout : outcome unit;
  smtp_connect : string -> Z -> outcome unit;
  smtp_starttls : outcome unit;
  smtp_login : string -> string -> outcome unit;
  smtp_send_message : string -> string -> string -> string -> outcome unit;
  smtp_quit : outcome unit;
  api_build : Credentials -> outcome unit;
  api_list : Z -> outcome (option (list string));
  api_get : string -> outcome ApiMessage;
  api_send : string -> outcome unit
}.

Inductive payload :=
| PayloadRaises             (* get_payload(decode=True) raises *)
| PayloadNone               (* it returns None *)
| PayloadBytes (b : string).

(** What [get_email_body] reads of a message part. *)
Record Part := mkPart {
  get_content_type : string;
  content_disposition : option string;      (* part.get("Content-Disposition") *)
  get_payload_decode : payload;             (* part.get_payload(decode=True) *)
  get_content_charset : option string
}.

(** What [msg.get(name)] returns for a header that is present: its text,
    or, when the raw header has bytes outside ASCII, an
    [email.header.Header] object made from it. *)
Inductive header :=
| HStr (s : string)
| HObj (raw : string).

(** What the code reads of an [email.message.Message]. *)
Record Message := mkMessage {
  msg_get : string -> option header;        (* msg.get(name) *)
  is_multipart : bool;
  walk : list Part;                         (* msg.walk() *)
  msg_part : Part;                          (* the message as a part *)
  get_payload_str : string                  (* str(msg.get_payload()) *)
}.

(** A chunk of [email.header.decode_header]: text, or bytes to decode. *)
Inductive chunk :=
| ChunkStr (s : string)
| ChunkBytes (b : string).

(** The functions of the standard library the transports call.
    [decode_header] raises on a malformed encoded word.
    [bytes_decode b enc] is [b.decode(enc, errors='replace')], [None] when it
    raises (unknown encoding); [decode_utf8] is the same with ['utf-8'],
    which cannot raise.  [parsedate_to_datetime] and [strftime] give [None]
    when they raise.  [mime_as_bytes to from subject body] builds the MIME
    message and serialises it ([message.as_bytes()]), which raises on a
    header that cannot be serialised. *)
Record EmailLib := mkEmailLib {
  datetime : Type;
  message_from_bytes : string -> Message;
  decode_header : header -> outcome (list (chunk * option string));
  bytes_decode : string -> string -> option string;
  decode_utf8 : string -> string;
  parsedate_to_datetime : header -> option datetime;
  strftime : datetime -> string -> option string;
  mime_as_bytes : string -> string -> string -> string -> outcome string;
  urlsafe_b64encode : string -> string
}.

(** [str.upper()]: the Unicode tables are not part of the repository; on
    ASCII text it is [Py.upper]. *)
Record Unicode := mkUnicode {
  str_upper : string -> string;
  str_upper_ascii : forall s, Py.is_ascii s = true -> str_upper s = Py.upper s
}.

(** ** Transport A: gmail_service.py *)

Definition IMAP_SERVER : string := "imap.gmail.com".
Definition SMTP_SERVER : string := "smtp.gmail.com".
Definition SMTP_PORT : Z := 587.

(** The canonical message, one dictionary of the list both [fetch_emails]
    and [fetch_emails_oauth] return. *)
Record Email := mkEmail {
  e_id : string;
  e_subject : string;
  e_from : string;
  e_date : string;
  e_body : string
}.

(** The pair [(success, payload)] the transports return: [(True, emails)] or
    [(False, message)] for a fetch, [(flag, message)] otherwise. *)
Inductive fetch_result :=
| FetchOk (emails : list Email)
| FetchFailed (message : string).

Definition APP_PASSWORD_GUIDANCE : string :=
  "Authentication failed: Please use an App Password, not your regular Gmail password. See instructions below.".

(** The test of [authenticate] on the text of an IMAP error. *)
Definition is_bad_credentials (U : Unicode) (error_msg : string) : bool :=
  Py.str_in "AUTHENTICATIONFAILED" (str_upper U error_msg)
  || Py.str_in "Invalid credentials" error_msg.

(** The exception of [date_str[:20]] on a [Header] object. *)
Definition not_subscriptable : exn :=
  mkExn OtherException "'Header' object is not subscriptable".

(** Propagation of exceptions in the code between two calls. *)
Definition obind {A B} (r : outcome A) (k : A -> outcome B) : outcome B :=
  match r with
  | Ret a => k a
  | Raise e => Raise e
  end.

(** [msg_data]: the tuples of the response, in order. *)
Definition is_tuple (r : response_part) : bool :=
  match r with RespTuple _ _ => true | RespBytes _ => false end.

(** [email_ids[-count:] if len(email_ids) > count else email_ids], then
    [email_ids[::-1]]. *)
Definition select_latest (email_ids : list string) (count : Z) : list string :=
  rev (if (count <? Z.of_nat (length email_ids))%Z
       then Py.slice email_ids (Some (- count)%Z) None
       else email_ids).

Section TransportA.

Context (P : Provider) (U : Unicode) (L : EmailLib).

(** The debugging [print] calls of the source are left out. *)
Definition authenticate (email_address app_password : string) : M (bool * string) :=
  try_except
    (let* _ := perform (ImapConnect IMAP_SERVER) (imap_connect P IMAP_SERVER) in
     let* _ := perform (ImapLogin email_address app_password)
                       (imap_login P email_address app_password) in
     let* _ := perform ImapLogout (imap_logout P) in
     ret (true, "Authentication successful!"))
    (fun e =>
       match exn_kind e with
       | IMAP4_error =>
           let error_msg := exn_str e in
           if is_bad_credentials U error_msg
           then ret (false, APP_PASSWORD_GUIDANCE)
           else ret (false, "Authentication failed: " +:+ error_msg)
       | _ => ret (false, "Connection error: " +:+ exn_str e)
       end).

(** One chunk of [decode_mime_header]: bytes are decoded with the declared
    encoding (utf-8 when there is none), and with utf-8 when that raises. *)
Definition decode_chunk (c : chunk * option string) : string :=
  match c with
  | (ChunkBytes part, encoding) =>
      match bytes_decode L part (Py.or_else encoding "utf-8") with
      | Some s => s
      | None => decode_utf8 L part
      end
  | (ChunkStr part, _) => part
  end.

(** An exception of [decode_header] is not caught here. *)
Definition decode_mime_header (header_value : option header) : outcome string :=
  match header_value with
  | None => Ret ""
  | Some header_value =>
      obind (decode_header L header_value) (fun parts =>
      Ret (String.concat "" (decode_chunk <$> parts)))
  end.

(** The [try] block on one part: the decoded text, when there is one. *)
Definition part_text (part : Part) : option string :=
  match get_payload_decode part with
  | PayloadBytes payload =>
      if Py.truthy payload
      then bytes_decode L payload (Py.or_else (get_content_charset part) "utf-8")
      else None
  | PayloadNone | PayloadRaises => None
  end.

(** The loop over [msg.walk()]: the first text/plain part that is not an
    attachment and whose text decodes gives the body. *)
Fixpoint first_plain_text (parts : list Part) : string :=
  match parts with
  | [] => ""
  | part :: rest =>
      let content_type := get_content_type part in
      let content_disposition := default "None" (content_disposition part) in
      if String.eqb content_type "text/plain"
         && negb (Py.str_in "attachment" content_disposition)
      then match part_text part with
           | Some body => body
           | None => first_plain_text rest
           end
      else first_plain_text rest
  end.

(** The single-part branch: an empty or missing payload leaves the body
    empty, an exception falls back to [str(msg.get_payload())]. *)
Definition single_part_text (msg : Message) : string :=
  match get_payload_decode (msg_part msg) with
  | PayloadRaises => get_payload_str msg
  | PayloadNone => ""
  | PayloadBytes payload =>
      if Py.truthy payload
      then match bytes_decode L payload
                   (Py.or_else (get_content_charset (msg_part msg)) "utf-8") with
           | Some body => body
           | None => get_payload_str msg
           end
      else ""
  end.

Definition get_email_body (msg : Message) : string :=
  let body := if is_multipart msg then first_plain_text (walk msg)
              else single_part_text msg in
  truncate_body body.

(** The [try] block on the date: the parsed date in display format. *)
Definition parse_date (date_str : header) : option string :=
  date_parsed ← parsedate_to_datetime L date_str;
  strftime L date_parsed "%b %d, %Y %I:%M %p".

(** On any exception of the [try] block the date is
    [date_str[:20] if date_str else "Unknown"].  A [Header] object is
    truthy and cannot be sliced: the handler raises in its turn. *)
Definition format_date (date_str : header) : outcome string :=
  match parse_date date_str with
  | Some date_formatted => Ret date_formatted
  | None =>
      match date_str with
      | HStr date_str =>
          Ret (if Py.truthy date_str then Py.str_slice date_str None (Some 20%Z)
               else "Unknown")
      | HObj _ => Raise not_subscriptable
      end
  end.

(** The dictionary built for one tuple of the response. *)
Definition email_of_raw (email_id raw : string) : outcome Email :=
  let msg := message_from_bytes L raw in
  obind (decode_mime_header (Some (default (HStr "No Subject") (msg_get msg "Subject"))))
    (fun subject =>
  obind (decode_mime_header (Some (default (HStr "Unknown") (msg_get msg "From"))))
    (fun from_addr =>
  let date_str := default (HStr "") (msg_get msg "Date") in
  let body := get_email_body msg in
  obind (format_date date_str) (fun date_formatted =>
  Ret {| e_id := email_id;
         e_subject := subject;
         e_from := from_addr;
         e_date := date_formatted;
         e_body := body |}))).

(** The inner loop over [msg_data]. *)
Fixpoint emails_of_response (email_id : string) (msg_data : list response_part)
    : outcome (list Email) :=
  match msg_data with
  | [] => Ret []
  | RespTuple _ raw :: rest =>
      obind (email_of_raw email_id raw) (fun email =>
      obind (emails_of_response email_id rest) (fun emails =>
      Ret (email :: emails)))
  | RespBytes _ :: rest => emails_of_response email_id rest
  end.

(** The loop over the selected identifiers; a fetch whose status is not
    OK is skipped. *)
Fixpoint fetch_loop (email_ids : list string) (emails : list Email) : M (list Email) :=
  match email_ids with
  | [] => ret emails
  | email_id :: rest =>
      let* (status, msg_data) := perform (ImapFetch email_id) (imap_fetch P email_id) in
      if String.eqb status "OK"
      then
        let* new_emails := lift (emails_of_response email_id msg_data) in
        fetch_loop rest (emails ++ new_emails)
      else fetch_loop rest emails
  end.

Definition fetch_emails (email_address app_password : string) (count : Z) : M fetch_result :=
  try_except
    (let* _ := perform (ImapConnect IMAP_SERVER) (imap_connect P IMAP_SERVER) in
     let* _ := perform (ImapLogin email_address app_password)
                       (imap_login P email_address app_password) in
     let* _ := perform (ImapSelect "INBOX") (imap_select P "INBOX") in
     let* (status, email_ids) := perform (ImapSearch "ALL") (imap_search P "ALL") in
     if negb (String.eqb status "OK")
     then ret (FetchFailed "Failed to fetch emails")
     else
       let email_ids := select_latest email_ids count in
       let* emails := fetch_loop email_ids [] in
       let* _ := perform ImapLogout (imap_logout P) in
       ret (FetchOk emails))
    (fun e =>
       match exn_kind e with
       | IMAP4_error => ret (FetchFailed ("IMAP error: " +:+ exn_str e))
       | _ => ret (FetchFailed ("Error fetching emails: " +:+ exn_str e))
       end).

Definition send_email (email_address app_password to subject body : string) : M (bool * string) :=
  try_except
    (let* _ := perform (SmtpConnect SMTP_SERVER SMTP_PORT) (smtp_connect P SMTP_SERVER SMTP_PORT) in
     let* _ := perform SmtpStarttls (smtp_starttls P) in
     let* _ := perform (SmtpLogin email_address app_password)
                       (smtp_login P email_address app_password) in
     let* _ := perform (SmtpSendMessage email_address to subject body)
                       (smtp_send_message P email_address to subject body) in
     let* _ := perform SmtpQuit (smtp_quit P) in
     ret (true, "Email sent successfully!"))
    (fun e =>
       match exn_kind e with
       | SMTPAuthenticationError => ret (false, "Authentication failed: Invalid credentials")
       | SMTPRecipientsRefused => ret (false, "Failed: Invalid recipient email address")
       | _ => ret (false, "Failed to send email: " +:+ exn_str e)
       end).

End TransportA.

(** ** Transport B: oauth_service.py *)

(** [next((h['value'] for h in headers if h['name'].lower() == name), dflt)] *)
Definition header_value (headers : list ApiHeader) (name dflt : string) : string :=
  match List.find (fun h => String.eqb (Py.lower (h_name h)) name) headers with
  | Some h => h_value h
  | None => dflt
  end.

(** [message.get('payload', {}).get('headers', [])] *)
Definition message_headers (message : ApiMessage) : list ApiHeader :=
  match api_payload message with
  | Some (Some headers) => headers
  | Some None | None => []
  end.

(** The dictionary built for one message of the list.  The [try] around
    the date slice of the source has nothing to catch. *)
Definition email_of_api (msg_id : string) (message : ApiMessage) : Email :=
  let headers := message_headers message in
  let subject := header_value headers "subject" "No Subject" in
  let from_addr := header_value headers "from" "Unknown" in
  let date_str := header_value headers "date" "Unknown" in
  let snippet := default "" (api_snippet message) in
  let date_formatted :=
    if (25 <? Py.len date_str)%Z then Py.str_slice date_str None (Some 25%Z)
    else date_str in
  {| e_id := msg_id;
     e_subject := subject;
     e_from := from_addr;
     e_date := date_formatted;
     e_body := truncate_body snippet |}.

Section TransportB.

Context (P : Provider) (L : EmailLib).

Definition get_gmail_service (credentials : Credentials) : M unit :=
  perform (ApiBuild credentials) (api_build P credentials).

Fixpoint fetch_loop_oauth (messages : list string) (emails : list Email) : M (list Email) :=
  match messages with
  | [] => ret emails
  | msg_id :: rest =>
      let* message := perform (ApiGet msg_id) (api_get P msg_id) in
      fetch_loop_oauth rest (emails ++ [email_of_api msg_id message])
  end.

Definition fetch_emails_oauth (credentials : Credentials) (count : Z) : M fetch_result :=
  try_except
    (let* _ := get_gmail_service credentials in
     let* results := perform (ApiList count) (api_list P count) in
     let messages := default [] results in
     match messages with
     | [] => ret (FetchOk [])
     | _ =>
         let* emails := fetch_loop_oauth messages [] in
         ret (FetchOk emails)
     end)
    (fun e =>
       match exn_kind e with
       | HttpError => ret (FetchFailed ("Gmail API error: " +:+ exn_str e))
       | _ => ret (FetchFailed ("Error fetching emails: " +:+ exn_str e))
       end).

Definition send_email_oauth (credentials : Credentials)
    (to subject body from_email : string) : M (bool * string) :=
  try_except
    (let* _ := get_gmail_service credentials in
     let* message_bytes := lift (mime_as_bytes L to from_email subject body) in
     let raw_message := urlsafe_b64encode L message_bytes in
     let* _ := perform (ApiSend raw_message) (api_send P raw_message) in
     ret (true, "Email sent successfully!"))
    (fun e =>
       match exn_kind e with
       | HttpError => ret (false, "Gmail API error: " +:+ exn_str e)
       | _ => ret (false, "Failed to send email: " +:+ exn_str e)
       end).

End TransportB.

(** ** The pages: app.py *)

(** [st.session_state], the entries the inbox and compose pages use. *)
Record SessionState := mkSession {
  email : string;
  password : string;
  auth_method : option string;                    (* None, 'app_password' or 'oauth' *)
  oauth_credentials : option (gmap string value); (* None or the stored dictionary *)
  email_page : Z;
  emails_per_page : Z
}.

Definition set_email_page (st : SessionState) (page : Z) : SessionState :=
  {| email := email st; password := password st; auth_method := auth_method st;
     oauth_credentials := oauth_credentials st;
     email_page := page; emails_per_page := emails_per_page st |}.

Definition set_emails_per_page (st : SessionState) (per_page : Z) : SessionState :=
  {| email := email st; password := password st; auth_method := auth_method st;
     oauth_credentials := oauth_credentials st;
     email_page := email_page st; emails_per_page := per_page |}.

(** The options of the "Emails per page" select box. *)
Definition per_page_options : list Z := [10; 25; 50; 100]%Z.

(** [st.session_state.auth_method == 'oauth' and st.session_state.oauth_credentials] *)
Definition uses_oauth (st : SessionState) : option (gmap string value) :=
  match auth_method st, oauth_credentials st with
  | Some method, Some creds =>
      if String.eqb method "oauth" && negb (bool_decide (creds = ∅)) then Some creds else None
  | _, _ => None
  end.

(** What the pagination block of [inbox_page] computes and then renders. *)
Record PageView := mkPageView {
  total_emails : Z;
  total_pages : Z;
  current_page : Z;
  start_idx : Z;
  end_idx : Z;
  emails : list Email
}.

(** Lines "Pagination calculations" to "Get emails for current page";
    the session keeps the page number when it was lowered. *)
Definition paginate (st : SessionState) (all_emails : list Email) : SessionState * PageView :=
  let total_emails := Z.of_nat (length all_emails) in
  let per_page := emails_per_page st in
  let total_pages := ((total_emails + per_page - 1) / per_page)%Z in
  let current_page := email_page st in
  let '(current_page, st) :=
    if (total_pages <? current_page)%Z
    then (total_pages, set_email_page st total_pages)
    else (current_page, st) in
  let start_idx := ((current_page - 1) * per_page)%Z in
  let end_idx := Z.min (start_idx + per_page) total_emails in
  (st, {| total_emails := total_emails;
          total_pages := total_pages;
          current_page := current_page;
          start_idx := start_idx;
          end_idx := end_idx;
          emails := Py.slice all_emails (Some start_idx) (Some end_idx) |}).

(** The items shown when the session asks for page [p], and all the pages
    of a batch one after the other, from page 1 to the last one. *)
Definition page_items (st : SessionState) (all_emails : list Email) (p : Z) : list Email :=
  emails (paginate (set_email_page st p) all_emails).2.

Definition all_pages (st : SessionState) (all_emails : list Email) : list Email :=
  concat ((fun p : nat => page_items st all_emails (Z.of_nat p))
            <$> seq 1 (Z.to_nat (total_pages (paginate st all_emails).2))).

(** The buttons of the pagination bar and the two controls above it; a
    disabled button cannot be pressed. *)
Inductive control :=
| First | Prev | Next | Last
| Refresh
| SelectPerPage (per_page : Z).

Definition press (c : control) (view : PageView) (st : SessionState) : option SessionState :=
  match c with
  | First =>
      if (current_page view =? 1)%Z then None else Some (set_email_page st 1)
  | Prev =>
      if (current_page view =? 1)%Z then None
      else Some (set_email_page st (current_page view - 1))
  | Next =>
      if (current_page view =? total_pages view)%Z then None
      else Some (set_email_page st (current_page view + 1))
  | Last =>
      if (current_page view =? total_pages view)%Z then None
      else Some (set_email_page st (total_pages view))
  | Refresh => Some (set_email_page st 1)
  | SelectPerPage per_page =>
      if bool_decide (per_page ∈ per_page_options)
      then if (per_page =? emails_per_page st)%Z then Some st
           else Some (set_email_page (set_emails_per_page st per_page) 1)
      else None
  end.

(** What the inbox page shows. *)
Inductive inbox_view :=
| InboxEmpty
| InboxPage (view : PageView)
| InboxError (message : string).

Section Pages.

Context (P : Provider) (L : EmailLib).

Definition total_to_fetch : Z := 100.

(** The fetch of [inbox_page], dispatched on the authentication method. *)
Definition fetch_inbox (st : SessionState) : M fetch_result :=
  match uses_oauth st with
  | Some creds_dict =>
      match credentials_from_dict creds_dict with
      | Some credentials => fetch_emails_oauth P credentials total_to_fetch
      | None => raise (mkExn KeyError "'token'")
      end
  | None => fetch_emails P L (email st) (password st) total_to_fetch
  end.

(** [inbox_page] from the fetch on. *)
Definition inbox_page (st : SessionState) : M (SessionState * inbox_view) :=
  let* result := fetch_inbox st in
  match result with
  | FetchOk all_emails =>
      match all_emails with
      | [] =>
          let* _ := perform (UiInfo "📭 Your inbox is empty!") (Ret tt) in
          ret (st, InboxEmpty)
      | _ =>
          let '(st, view) := paginate st all_emails in
          ret (st, InboxPage view)
      end
  | FetchFailed message =>
      let* _ := perform (UiError ("❌ " +:+ message)) (Ret tt) in
      ret (st, InboxError message)
  end.

(** [compose_page] once the form is submitted with the values [to_email],
    [subject] and [body]. *)
Definition compose_page (st : SessionState) (to_email subject body : string) : M unit :=
  if negb (Py.truthy to_email)
  then perform (UiError "⚠️ Please enter a recipient email address.") (Ret tt)
  else if negb (Py.truthy subject)
  then perform (UiError "⚠️ Please enter a subject.") (Ret tt)
  else if negb (Py.truthy body)
  then perform (UiError "⚠️ Please enter a message.") (Ret tt)
  else
    let* (success, message) :=
      match uses_oauth st with
      | Some creds_dict =>
          match credentials_from_dict creds_dict with
          | Some credentials =>
              send_email_oauth P L credentials to_email subject body (email st)
          | None => raise (mkExn KeyError "'token'")
          end
      | None => send_email P (email st) (password st) to_email subject body
      end in
    if success : bool
    then let* _ := perform (UiSuccess ("✅ " +:+ message)) (Ret tt) in
         perform UiBalloons (Ret tt)
    else perform (UiError ("❌ " +:+ message)) (Ret tt).

End Pages.

(** ** Sample inputs *)

Definition short_body : string := "See you at noon.".

(** A body of 600 characters. *)
Definition long_body : string := String.concat "" (replicate 60 "0123456789").

Definition sample_email (n : string) : Email :=
  {| e_id := n; e_subject := "Subject " +:+ n; e_from := "sender@example.com";
     e_date := "Jan 01, 2024 09:00 AM"; e_body := short_body |}.

(** A batch of 23 messages, newest first. *)
Definition sample_batch : list Email :=
  (fun i : nat => sample_email (pretty i)) <$> rev (seq 1 23).

(** A session signed in with an App Password, on page [page]. *)
Definition sample_session (page per_page : Z) : SessionState :=
  {| email := "user@example.com"; password := "abcdefghijklmnop";
     auth_method := Some "app_password"; oauth_credentials := None;
     email_page := page; emails_per_page := per_page |}.

(** A credential without refresh token and with no scope. *)
Definition bare_credentials : Credentials :=
  {| token := VStr "ya29.token"; refresh_token := VNone;
     token_uri := VStr "https://oauth2.googleapis.com/token";
     client_id := VStr "client-id.apps.googleusercontent.com";
     client_secret := VStr "client-secret";
     scopes := VList [] |}.

(** A stand-in for the email library in the examples: a raw message is the
    raw value of its Date header (no header when empty), given as a
    [Header] object when it has bytes outside ASCII; a raw message that
    starts with "=?" is the value of its Subject header as well; its body
    is [short_body]; only dates of the first of January 2024 parse; the
    encoded word "=?utf-8?b?abcde?=", whose base64 text is malformed, does
    not decode; the empty charset and unknown-8bit are not codecs; a MIME
    header with a line break cannot be serialised. *)
Definition mock_message (raw : string) : Message :=
  {| msg_get := fun name =>
       if String.eqb name "Date" && Py.truthy raw
       then Some (if Py.is_ascii raw then HStr raw else HObj raw)
       else if String.eqb name "Subject" && String.prefix "=?" raw
       then Some (HStr raw)
       else None;
     is_multipart := false;
     walk := [];
     msg_part := {| get_content_type := "text/plain"; content_disposition := None;
                    get_payload_decode := PayloadBytes short_body;
                    get_content_charset := None |};
     get_payload_str := short_body |}.

Definition has_line_break (s : string) : bool :=
  Py.str_in (String (ascii_of_nat 10) EmptyString) s.

Definition mock_lib : EmailLib :=
  {| datetime := string;
     message_from_bytes := mock_message;
     decode_header := fun h =>
       match h with
       | HStr s =>
           if String.prefix "=?utf-8?b?abcde?=" s
           then Raise (mkExn OtherException "Base64 decoding error")
           else Ret [(ChunkStr s, None)]
       | HObj raw => Ret [(ChunkBytes raw, Some "unknown-8bit")]
       end;
     bytes_decode := fun b enc =>
       if String.eqb enc "unknown-8bit" || String.eqb enc "" then None else Some b;
     decode_utf8 := fun b => b;
     parsedate_to_datetime := fun h =>
       match h with
       | HStr s => if String.prefix "Mon, 01 Jan 2024" s then Some s else None
       | HObj _ => None
       end;
     strftime := fun _ _ => Some "Jan 01, 2024 09:00 AM";
     mime_as_bytes := fun to from_email subject body =>
       if has_line_break to || has_line_break from_email || has_line_break subject
       then Raise (mkExn OtherException "header value appears to contain an embedded header")
       else Ret ("To: " +:+ to +:+ " From: " +:+ from_email +:+ " Subject: " +:+ subject
                 +:+ " " +:+ body);
     urlsafe_b64encode := fun b => b |}.

(** [str.upper()] on the ASCII letters only, for the examples. *)
Definition ascii_upper : Unicode :=
  {| str_upper := Py.upper; str_upper_ascii := fun s _ => eq_refl |}.

Definition assoc {V} (k : string) (kvs : list (string * V)) : option V :=
  snd <$> List.find (fun kv => String.eqb (fst kv) k) kvs.

(** A stand-in for the provider: the IMAP login answers [login_answer], the
    mailbox holds the raw messages [mailbox] (oldest first, by identifier),
    the Gmail API holds [api_box] (newest first); every other call
    succeeds. *)
Definition mock_provider (login_answer : outcome unit)
    (mailbox : list (string * string)) (api_box : list (string * ApiMessage)) : Provider :=
  {| imap_connect := fun _ => Ret tt;
     imap_login := fun _ _ => login_answer;
     imap_select := fun _ => Ret tt;
     imap_search := fun _ => Ret ("OK", fst <$> mailbox);
     imap_fetch := fun email_id =>
       match assoc email_id mailbox with
       | Some raw => Ret ("OK", [RespTuple (email_id +:+ " (RFC822") raw; RespBytes ")"])
       | None => Ret ("NO", [])
       end;
     imap_logout := Ret tt;
     smtp_connect := fun _ _ => Ret tt;
     smtp_starttls := Ret tt;
     smtp_login := fun _ _ => Ret tt;
     smtp_send_message := fun _ _ _ _ => Ret tt;
     smtp_quit := Ret tt;
     api_build := fun _ => Ret tt;
     api_list := fun max_results => Ret (Some (take (Z.to_nat max_results) (fst <$> api_box)));
     api_get := fun msg_id =>
       match assoc msg_id api_box with
       | Some message => Ret message
       | None => Raise (mkExn HttpError "404 Not Found")
       end;
     api_send := fun _ => Ret tt |}.

(** The answer of Gmail to a wrong password. *)
Definition login_rejected : outcome unit :=
  Raise (mkExn IMAP4_error "b'[AUTHENTICATIONFAILED] Invalid credentials (Failure)'").

(** The record the stand-in library builds for the message [email_id] of a
    mailbox (an empty record when it cannot be built). *)
Definition mock_record (mailbox : list (string * string)) (email_id : string) : Email :=
  match email_of_raw mock_lib email_id (default "" (assoc email_id mailbox)) with
  | Ret email => email
  | Raise _ => mkEmail email_id "" "" "" ""
  end.

(** Three messages; the Date header of the second has a byte outside
    ASCII (in "février") and is read as a [Header] object. *)
Definition mailbox_8bit_date : list (string * string) :=
  [("1", "Mon, 01 Jan 2024 09:00:00 +0000");
   ("2", "jeu., 1 février 2024 09:00");
   ("3", "Mon, 01 Jan 2024 11:30:00 +0000")].

(** Two messages; the Subject header of the second is an encoded word
    whose base64 text is malformed. *)
Definition mailbox_bad_subject : list (string * string) :=
  [("1", "Mon, 01 Jan 2024 09:00:00 +0000");
   ("2", "=?utf-8?b?abcde?=")].

(** Three messages; the date of the second does not parse. *)
Definition sample_mailbox : list (string * string) :=
  [("1", "Mon, 01 Jan 2024 09:00:00 +0000");
   ("2", "Yesterday, around noon, I think");
   ("3", "Mon, 01 Jan 2024 11:30:00 +0000")].

Definition sample_api_box : list (string * ApiMessage) :=
  [("18c2", {| api_payload := Some (Some [mkApiHeader "Received" "by mx.example.com";
                                           mkApiHeader "SUBJECT" "Lunch?";
                                           mkApiHeader "From" "ann@example.com";
                                           mkApiHeader "subject" "ignored";
                                           mkApiHeader "date" "Mon, 01 Jan 2024 09:00:00 +0000 (UTC)"]);
              api_snippet := Some long_body |});
   ("18c1", {| api_payload := None; api_snippet := None |})].

(** ** Auxiliary definitions of the statements *)

(** The three IMAP calls of [authenticate] in order: the first exception, or
    success. *)
Definition imap_handshake (P : Provider) (email_address app_password : string) : outcome unit :=
  match imap_connect P IMAP_SERVER with
  | Raise e => Raise e
  | Ret _ =>
      match imap_login P email_address app_password with
      | Raise e => Raise e
      | Ret _ => imap_logout P
      end
  end.

(** Whether a message tells the user to use an App Password. *)
Definition mentions_app_password (message : string) : bool :=
  Py.str_in "App Password" message.

(** [clash needle p]: [needle] and [p] differ at a position both have, so
    that [needle] starts no text that starts with [p]; [clear_of needle p]:
    this holds at every position of [p]. *)
Fixpoint clash (needle p : string) : bool :=
  match needle, p with
  | String a needle', String b p' =>
      if Ascii.eqb a b then clash needle' p' else true
  | _, _ => false
  end.

Fixpoint clear_of (needle p : string) : bool :=
  match p with
  | EmptyString => true
  | String _ p' => clash needle p && clear_of needle p'
  end.

(** [value] is what [next(...)] finds for the header [name]: the value of
    the first header whose lower-cased name is [name], or [dflt] when no
    header has that name. *)
Definition first_match (headers : list ApiHeader) (name dflt value : string) : Prop :=
  (exists before h after,
      headers = before ++ h :: after
      /\ Py.lower (h_name h) = name
      /\ (forall h', h' ∈ before -> Py.lower (h_name h') <> name)
      /\ value = h_value h)
  \/ ((forall h, h ∈ headers -> Py.lower (h_name h) <> name) /\ value = dflt).

(** [short] is [text] cut after its first [n] characters, when it has more. *)
Definition cut_at (n : nat) (text short : string) : Prop :=
  (String.length text <= n /\ short = text)
  \/ (n < String.length text
      /\ String.length short = n /\ exists rest, text = short +:+ rest).

(** The raw message of a tuple of the response. *)
Definition tuple_raw (r : response_part) : string :=
  match r with RespTuple _ raw => raw | RespBytes b => b end.

(** [needle] occurs in [text]. *)
Definition occurs (needle text : string) : Prop :=
  exists before after, text = before +:+ needle +:+ after.

(** The record of every identifier can be built from its raw message: no
    header fails to decode and no date fallback meets a [Header] object. *)
Definition records_built (L : EmailLib) (email_ids : list string)
    (raw_of : string -> string) (record_of : string -> Email) : Prop :=
  Forall (fun email_id => email_of_raw L email_id (raw_of email_id) = Ret (record_of email_id))
         email_ids.

(** The records of all the tuples of a response can be built. *)
Definition response_builds (L : EmailLib) (email_id : string)
    (msg_data : list response_part) : Prop :=
  Forall (fun r => is_tuple r = true ->
                   exists email, email_of_raw L email_id (tuple_raw r) = Ret email)
         msg_data.

(** The server lets [fetch_emails] through: the connection, the login, the
    selection of the inbox and the logout succeed, the search answers OK
    with the identifiers [email_ids], and no fetch of one of them raises. *)
Definition mailbox_served (P : Provider) (email_address app_password : string)
    (email_ids : list string) : Prop :=
  imap_connect P IMAP_SERVER = Ret tt
  /\ imap_login P email_address app_password = Ret tt
  /\ imap_select P "INBOX" = Ret tt
  /\ imap_search P "ALL" = Ret ("OK", email_ids)
  /\ Forall (fun email_id => exists r, imap_fetch P email_id = Ret r) email_ids
  /\ imap_logout P = Ret tt.

(** Every identifier is fetched with status OK and a response with exactly
    one tuple, which holds the raw message [raw_of email_id]. *)
Definition one_message_each (P : Provider) (email_ids : list string)
    (raw_of : string -> string) : Prop :=
  Forall (fun email_id =>
            exists msg_data envelope,
              imap_fetch P email_id = Ret ("OK", msg_data)
              /\ List.filter is_tuple msg_data = [RespTuple envelope (raw_of email_id)])
         email_ids.

(** The calls [fetch_emails] makes when the server lets it through. *)
Definition fetch_trace (email_address app_password : string) (selected : list string) : list event :=
  [ImapConnect IMAP_SERVER; ImapLogin email_address app_password;
   ImapSelect "INBOX"; ImapSearch "ALL"]
  ++ (ImapFetch <$> selected) ++ [ImapLogout].

(** ** Auxiliary definitions of the further properties *)

(** The five SMTP calls of [send_email] in order: the first exception, or
    success. *)
Definition smtp_session (P : Provider) (email_address app_password to subject body : string)
    : outcome unit :=
  match smtp_connect P SMTP_SERVER SMTP_PORT with
  | Raise e => Raise e
  | Ret _ =>
      match smtp_starttls P with
      | Raise e => Raise e
      | Ret _ =>
          match smtp_login P email_address app_password with
          | Raise e => Raise e
          | Ret _ =>
              match smtp_send_message P email_address to subject body with
              | Raise e => Raise e
              | Ret _ => smtp_quit P
              end
          end
      end
  end.

(** The transport an event belongs to. *)
Definition is_imap_event (ev : event) : bool :=
  match ev with
  | ImapConnect _ | ImapLogin _ _ | ImapSelect _ | ImapSearch _ | ImapFetch _
  | ImapLogout => true
  | _ => false
  end.

Definition is_smtp_event (ev : event) : bool :=
  match ev with
  | SmtpConnect _ _ | SmtpStarttls | SmtpLogin _ _ | SmtpSendMessage _ _ _ _
  | SmtpQuit => true
  | _ => false
  end.

Definition is_api_event (ev : event) : bool :=
  match ev with
  | ApiBuild _ | ApiList _ | ApiGet _ | ApiSend _ => true
  | _ => false
  end.

Definition is_ui_event (ev : event) : bool := negb (is_network ev).

(** An event that carries the App Password. *)
Definition sends_password (ev : event) : bool :=
  match ev with
  | ImapLogin _ _ | SmtpLogin _ _ => true
  | _ => false
  end.

(** The message of [fetch_emails] for an exception. *)
Definition fetch_error_message (e : exn) : string :=
  match exn_kind e with
  | IMAP4_error => "IMAP error: " +:+ exn_str e
  | _ => "Error fetching emails: " +:+ exn_str e
  end.

(** The message of [send_email_oauth] for an exception. *)
Definition send_error_message (e : exn) : string :=
  match exn_kind e with
  | HttpError => "Gmail API error: " +:+ exn_str e
  | _ => "Failed to send email: " +:+ exn_str e
  end.

(** The message of [fetch_emails_oauth] for an exception. *)
Definition api_error_message (e : exn) : string :=
  match exn_kind e with
  | HttpError => "Gmail API error: " +:+ exn_str e
  | _ => "Error fetching emails: " +:+ exn_str e
  end.

(** The connection, the login and the selection of the inbox succeed and
    the search answers [(status, email_ids)]. *)
Definition mailbox_opened (P : Provider) (email_address app_password status : string)
    (email_ids : list string) : Prop :=
  imap_connect P IMAP_SERVER = Ret tt
  /\ imap_login P email_address app_password = Ret tt
  /\ imap_select P "INBOX" = Ret tt
  /\ imap_search P "ALL" = Ret (status, email_ids).

(** A provider whose search is refused, one whose second message cannot be
    fetched (the status is NO), and one whose fetch of message 2 raises. *)
Definition with_search (P : Provider) (answer : outcome (string * list string)) : Provider :=
  {| imap_connect := imap_connect P; imap_login := imap_login P;
     imap_select := imap_select P; imap_search := fun _ => answer;
     imap_fetch := imap_fetch P; imap_logout := imap_logout P;
     smtp_connect := smtp_connect P; smtp_starttls := smtp_starttls P;
     smtp_login := smtp_login P; smtp_send_message := smtp_send_message P;
     smtp_quit := smtp_quit P; api_build := api_build P; api_list := api_list P;
     api_get := api_get P; api_send := api_send P |}.

Definition with_connect (P : Provider) (answer : outcome unit) : Provider :=
  {| imap_connect := fun _ => answer; imap_login := imap_login P;
     imap_select := imap_select P; imap_search := imap_search P;
     imap_fetch := imap_fetch P; imap_logout := imap_logout P;
     smtp_connect := smtp_connect P; smtp_starttls := smtp_starttls P;
     smtp_login := smtp_login P; smtp_send_message := smtp_send_message P;
     smtp_quit := smtp_quit P; api_build := api_build P; api_list := api_list P;
     api_get := api_get P; api_send := api_send P |}.

Definition with_fetch (P : Provider) (email_id : string)
    (answer : outcome (string * list response_part)) : Provider :=
  {| imap_connect := imap_connect P; imap_login := imap_login P;
     imap_select := imap_select P; imap_search := imap_search P;
     imap_fetch := fun i => if String.eqb i email_id then answer else imap_fetch P i;
     imap_logout := imap_logout P;
     smtp_connect := smtp_connect P; smtp_starttls := smtp_starttls P;
     smtp_login := smtp_login P; smtp_send_message := smtp_send_message P;
     smtp_quit := smtp_quit P; api_build := api_build P; api_list := api_list P;
     api_get := api_get P; api_send := api_send P |}.

Definition sample_provider : Provider := mock_provider (Ret tt) sample_mailbox sample_api_box.

(** The charset a part is decoded with: its own, or utf-8 when it declares
    none or an empty one. *)
Definition decoding_charset (part : Part) : string :=
  match get_content_charset part with
  | Some (String c charset) => String c charset
  | Some EmptyString | None => "utf-8"
  end.

(** A part that can give the body: of type text/plain, without
    "attachment" in its Content-Disposition, with a payload that is not
    empty and decodes to [text]. *)
Definition usable_part (L : EmailLib) (part : Part) (text : string) : Prop :=
  get_content_type part = "text/plain"
  /\ ~ occurs "attachment" (default "None" (content_disposition part))
  /\ exists payload,
       get_payload_decode part = PayloadBytes payload
       /\ payload <> ""
       /\ bytes_decode L payload (decoding_charset part) = Some text.

(** A multipart message: an HTML alternative, a text attachment, and the
    plain text of the message. *)
Definition sample_multipart : Message :=
  {| msg_get := fun _ => None;
     is_multipart := true;
     walk := [ {| get_content_type := "multipart/mixed"; content_disposition := None;
                  get_payload_decode := PayloadNone; get_content_charset := None |};
               {| get_content_type := "text/html"; content_disposition := None;
                  get_payload_decode := PayloadBytes "<p>Hello</p>";
                  get_content_charset := Some "utf-8" |};
               {| get_content_type := "text/plain";
                  content_disposition := Some "attachment; filename=notes.txt";
                  get_payload_decode := PayloadBytes "notes";
                  get_content_charset := None |};
               {| get_content_type := "text/plain"; content_disposition := None;
                  get_payload_decode := PayloadBytes "Hello";
                  get_content_charset := Some "utf-8" |} ];
     msg_part := {| get_content_type := "multipart/mixed"; content_disposition := None;
                    get_payload_decode := PayloadNone; get_content_charset := None |};
     get_payload_str := "" |}.

(** A multipart message whose first text part declares an empty charset. *)
Definition sample_empty_charset : Message :=
  {| msg_get := fun _ => None;
     is_multipart := true;
     walk := [ {| get_content_type := "multipart/alternative"; content_disposition := None;
                  get_payload_decode := PayloadNone; get_content_charset := None |};
               {| get_content_type := "text/plain"; content_disposition := None;
                  get_payload_decode := PayloadBytes "Bonjour";
                  get_content_charset := Some "" |};
               {| get_content_type := "text/plain"; content_disposition := None;
                  get_payload_decode := PayloadBytes "Hello";
                  get_content_charset := Some "utf-8" |} ];
     msg_part := {| get_content_type := "multipart/alternative"; content_disposition := None;
                    get_payload_decode := PayloadNone; get_content_charset := None |};
     get_payload_str := "" |}.

(** A provider whose Gmail API cannot get the message [msg_id]. *)
Definition with_api_get (P : Provider) (msg_id : string) (answer : outcome ApiMessage) : Provider :=
  {| imap_connect := imap_connect P; imap_login := imap_login P;
     imap_select := imap_select P; imap_search := imap_search P;
     imap_fetch := imap_fetch P; imap_logout := imap_logout P;
     smtp_connect := smtp_connect P; smtp_starttls := smtp_starttls P;
     smtp_login := smtp_login P; smtp_send_message := smtp_send_message P;
     smtp_quit := smtp_quit P; api_build := api_build P; api_list := api_list P;
     api_get := fun i => if String.eqb i msg_id then answer else api_get P i;
     api_send := api_send P |}.

(** ** The login page and the session store: app.py *)



(** The values [st.session_state] holds. *)
Inductive session_value :=
| SBool (b : bool)
| SText (s : string)
| SInt (z : Z)
| SNone
| SDict (d : gmap string value).

(** [if key not in st.session_state: st.session_state.key = v] *)
Definition set_default (key : string) (v : session_value)
    (ss : gmap string session_value) : gmap string session_value :=
  match ss !! key with
  | Some _ => ss
  | None => <[key := v]> ss
  end.

Definition init_session_state (ss : gmap string session_value) : gmap string session_value :=
  set_default "emails_per_page" (SInt 25)
  (set_default "email_page" (SInt 1)
  (set_default "oauth_credentials" SNone
  (set_default "auth_method" SNone
  (set_default "current_page" (SText "inbox")
  (set_default "password" (SText "")
  (set_default "email" (SText "")
  (set_default "logged_in" (SBool false) ss))))))).

(** The values of a fresh session. *)
Definition session_defaults : gmap string session_value :=
  <["logged_in" := SBool false]>
  (<["email" := SText ""]>
  (<["password" := SText ""]>
  (<["current_page" := SText "inbox"]>
  (<["auth_method" := SNone]>
  (<["oauth_credentials" := SNone]>
  (<["email_page" := SInt 1]>
  (<["emails_per_page" := SInt 25]> ∅))))))).

(** A session signed in with Google, on page 1 with 25 messages per page. *)
Definition oauth_session (stored : gmap string value) : SessionState :=
  {| email := "user@example.com"; password := "";
     auth_method := Some "oauth"; oauth_credentials := Some stored;
     email_page := 1; emails_per_page := 25 |}.


(** ** The OAuth callback: app.py and oauth_service.py *)









(** ** Tactics of the further properties *)

(** The cases of a handler on the class of the exception. *)
Ltac handler_cases e :=
  destruct (exn_kind e); simpl;
  try destruct (is_bad_credentials _ (exn_str e)); simpl.

(** Membership in an explicit list of events. *)
Ltac solve_mem :=
  solve [repeat first [apply list_elem_of_here | apply list_elem_of_further]].

Ltac refute_mem H :=
  repeat (apply elem_of_cons in H as [H|H]; [discriminate H|]);
  by apply elem_of_nil in H.

Ltac mem_iff :=
  let H := fresh "H" in
  split;
  [ intros H; first [ by repeat split | refute_mem H ]
  | intros H; first [ solve_mem | decompose [and] H; discriminate ] ].

(** * Properties *)

(** ** Slices and strings *)

Section PyFacts.

Context {A : Type}.
Implicit Types l : list A.

Lemma slice_bound_range len dflt i :
  (0 <= len)%Z -> (0 <= dflt <= len)%Z ->
  (0 <= Py.slice_bound len dflt i <= len)%Z.
Proof.
  intros Hlen Hd. destruct i as [i|]; simpl; [|lia].
  destruct (Z.ltb_spec i 0); lia.
Qed.

(** A slice between two bounds inside the list. *)
Lemma slice_inside l (lo hi : Z) :
  (0 <= lo)%Z -> (0 <= hi <= Z.of_nat (length l))%Z ->
  Py.slice l (Some lo) (Some hi) =
  take (Z.to_nat hi - Z.to_nat lo) (drop (Z.to_nat lo) l).
Proof.
  intros Hlo Hhi. unfold Py.slice, Py.slice_bound.
  destruct (Z.ltb_spec lo 0); [lia|].
  destruct (Z.ltb_spec hi 0); [lia|].
  destruct (Z.le_gt_cases lo (Z.of_nat (length l))) as [Hin|Hout].
  - rewrite (Z.min_l lo), (Z.min_l hi) by lia. f_equal. lia.
  - rewrite (Z.min_r lo), (Z.min_l hi) by lia.
    rewrite !drop_ge by lia. by rewrite !take_nil.
Qed.

(** [l[:n]] for a non-negative [n]. *)
Lemma slice_prefix l (n : Z) :
  (0 <= n)%Z -> Py.slice l None (Some n) = take (Z.to_nat n) l.
Proof.
  intros Hn. unfold Py.slice, Py.slice_bound.
  destruct (Z.ltb_spec n 0); [lia|]. rewrite drop_0.
  destruct (Z.le_gt_cases n (Z.of_nat (length l))).
  - rewrite Z.min_l by lia. f_equal. lia.
  - rewrite Z.min_r by lia. rewrite !take_ge by lia. done.
Qed.

(** [l[-n:]] for a positive [n] keeps the last [n] elements. *)
Lemma slice_suffix l (n : Z) :
  (0 < n)%Z ->
  Py.slice l (Some (- n)%Z) None = drop (length l - Z.to_nat n) l.
Proof.
  intros Hn. unfold Py.slice, Py.slice_bound.
  destruct (Z.ltb_spec (- n) 0); [|lia].
  rewrite take_ge by (rewrite length_drop; lia).
  f_equal. lia.
Qed.

(** [l[-0:]] is [l[0:]], the whole list. *)
Lemma slice_suffix_zero l : Py.slice l (Some (- 0)%Z) None = l.
Proof.
  unfold Py.slice, Py.slice_bound. simpl.
  rewrite Z.min_l by lia. simpl. rewrite drop_0.
  apply take_ge. lia.
Qed.

End PyFacts.

Lemma length_string_of_list_ascii (l : list ascii) :
  String.length (string_of_list_ascii l) = length l.
Proof. induction l as [|c l IH]; simpl; congruence. Qed.

Lemma length_list_ascii_of_string (s : string) :
  length (list_ascii_of_string s) = String.length s.
Proof. induction s as [|c s IH]; simpl; congruence. Qed.

Lemma string_app_nil (t : string) : "" +:+ t = t.
Proof. reflexivity. Qed.

Lemma string_app_cons (c : ascii) (s t : string) :
  String c s +:+ t = String c (s +:+ t).
Proof. reflexivity. Qed.

Lemma string_of_list_ascii_app (l k : list ascii) :
  string_of_list_ascii (l ++ k) = string_of_list_ascii l +:+ string_of_list_ascii k.
Proof.
  induction l as [|c l IH]; simpl; [done|].
  by rewrite string_app_cons, IH.
Qed.

Lemma list_ascii_of_string_app (s t : string) :
  list_ascii_of_string (s +:+ t) = list_ascii_of_string s ++ list_ascii_of_string t.
Proof.
  induction s as [|c s IH]; [done|].
  rewrite string_app_cons. simpl. by rewrite IH.
Qed.

Lemma string_length_app (s t : string) :
  String.length (s +:+ t) = String.length s + String.length t.
Proof.
  induction s as [|c s IH]; [done|].
  rewrite string_app_cons. simpl. by rewrite IH.
Qed.

(** [s[:n]] splits [s]: it is the prefix of length [min n (len s)]. *)
Lemma str_slice_prefix (s : string) (n : Z) :
  (0 <= n)%Z ->
  Py.str_slice s None (Some n) = string_of_list_ascii (take (Z.to_nat n) (list_ascii_of_string s)).
Proof. intros Hn. unfold Py.str_slice. by rewrite slice_prefix. Qed.

Lemma str_slice_prefix_split (s : string) (n : Z) :
  (0 <= n)%Z ->
  s = Py.str_slice s None (Some n)
      +:+ string_of_list_ascii (drop (Z.to_nat n) (list_ascii_of_string s)).
Proof.
  intros Hn. rewrite str_slice_prefix by done.
  rewrite <- string_of_list_ascii_app, take_drop.
  by rewrite string_of_list_ascii_of_string.
Qed.

Lemma str_slice_prefix_length (s : string) (n : Z) :
  (0 <= n)%Z ->
  String.length (Py.str_slice s None (Some n)) = Z.to_nat n `min` String.length s.
Proof.
  intros Hn. rewrite str_slice_prefix by done.
  rewrite length_string_of_list_ascii, length_take, length_list_ascii_of_string. done.
Qed.

(** The prefix of a concatenation at the length of its left part. *)
Lemma str_slice_prefix_app (s t : string) :
  Py.str_slice (s +:+ t) None (Some (Py.len s)) = s.
Proof.
  rewrite str_slice_prefix by (unfold Py.len; lia).
  rewrite list_ascii_of_string_app. unfold Py.len. rewrite Nat2Z.id.
  rewrite <- length_list_ascii_of_string, take_app_length.
  apply string_of_list_ascii_of_string.
Qed.

(** ** Body truncation *)

Lemma truncate_body_short (body : string) :
  (Py.len body <= 500)%Z -> truncate_body body = body.
Proof.
  intros Hlen. unfold truncate_body.
  destruct (Z.ltb_spec 500 (Py.len body)); [lia | done].
Qed.

Lemma truncate_body_long (body : string) :
  (500 < Py.len body)%Z ->
  truncate_body body = Py.str_slice body None (Some 500%Z) +:+ "..."
  /\ Py.len (Py.str_slice body None (Some 500%Z)) = 500%Z.
Proof.
  intros Hlen. unfold truncate_body.
  destruct (Z.ltb_spec 500 (Py.len body)); [|lia]. split; [done|].
  unfold Py.len in *. rewrite str_slice_prefix_length by lia. lia.
Qed.

Lemma truncate_body_length (body : string) :
  (Py.len (truncate_body body) <= 503)%Z.
Proof.
  destruct (Z.le_gt_cases (Py.len body) 500) as [Hle|Hgt].
  - by rewrite truncate_body_short; [lia|].
  - destruct (truncate_body_long body) as [-> Hhead]; [lia|].
    unfold Py.len in *. rewrite string_length_app. simpl. lia.
Qed.

Lemma truncate_body_idempotent (body : string) :
  truncate_body (truncate_body body) = truncate_body body.
Proof.
  destruct (Z.le_gt_cases (Py.len body) 500) as [Hle|Hgt].
  - by rewrite !truncate_body_short; rewrite ?truncate_body_short.
  - destruct (truncate_body_long body) as [-> Hhead]; [lia|].
    set (head := Py.str_slice body None (Some 500%Z)) in *.
    destruct (truncate_body_long (head +:+ "...")) as [-> _].
    + unfold Py.len in *. rewrite string_length_app. simpl. lia.
    + f_equal. rewrite <- Hhead. apply str_slice_prefix_app.
Qed.

(** C3.  The truncation of a message body: a body of at most 500
    characters is returned unchanged; a longer body gives its first 500
    characters followed by the marker "..."; truncating a truncated body
    changes nothing; and every body the two transports produce
    ([get_email_body], the ['body'] entry of [fetch_emails_oauth]) has at
    most 503 characters. *)
Theorem truncate_body_spec :
  (forall body, (Py.len body <= 500)%Z -> truncate_body body = body)
  /\ (forall body, (500 < Py.len body)%Z ->
        exists head rest,
          body = head +:+ rest /\ Py.len head = 500%Z
          /\ truncate_body body = head +:+ "...")
  /\ (forall body, truncate_body (truncate_body body) = truncate_body body)
  /\ (forall body, (Py.len (truncate_body body) <= 503)%Z)
  /\ (forall L msg, (Py.len (get_email_body L msg) <= 503)%Z)
  /\ (forall msg_id message, (Py.len (e_body (email_of_api msg_id message)) <= 503)%Z).
Proof.
  split; [exact truncate_body_short|].
  split.
  { intros body Hlen. destruct (truncate_body_long body Hlen) as [Htr Hhead].
    eexists _, _. split; [apply (str_slice_prefix_split body 500); lia|]. done. }
  split; [exact truncate_body_idempotent|].
  split; [exact truncate_body_length|].
  split; intros; apply truncate_body_length.
Qed.

Lemma truncate_body_spec_witness :
  ((Py.len short_body <= 500)%Z /\ truncate_body short_body = short_body)
  /\ ((500 < Py.len long_body)%Z
      /\ exists head rest,
           long_body = head +:+ rest /\ Py.len head = 500%Z
           /\ truncate_body long_body = head +:+ "...").
Proof.
  pose proof truncate_body_spec as (Hshort & Hlong & _).
  split.
  - split; [by vm_compute|]. apply Hshort. by vm_compute.
  - split; [by vm_compute|]. apply Hlong. by vm_compute.
Defined.

(** ** Pagination *)

Lemma per_page_positive (per_page : Z) :
  per_page ∈ per_page_options -> (0 < per_page)%Z.
Proof.
  unfold per_page_options. rewrite !elem_of_cons, elem_of_nil.
  intros [->|[->|[->|[->|[]]]]]; lia.
Qed.

(** [(n + per_page - 1) // per_page] is the ceiling of [n / per_page]: the
    only [t] with [per_page * (t - 1) < n <= per_page * t]. *)
Lemma ceil_div_bounds (n per_page : Z) :
  (0 < per_page)%Z ->
  let t := ((n + per_page - 1) / per_page)%Z in
  (per_page * (t - 1) < n <= per_page * t)%Z.
Proof.
  intros Hpos t.
  pose proof (Z.mul_div_le (n + per_page - 1) per_page Hpos) as Hle.
  pose proof (Z.mul_succ_div_gt (n + per_page - 1) per_page Hpos) as Hgt.
  fold t in Hle, Hgt. rewrite Z.mul_succ_r in Hgt.
  rewrite Z.mul_sub_distr_l. lia.
Qed.

Lemma ceil_div_unique (n per_page t : Z) :
  (0 < per_page)%Z ->
  (per_page * (t - 1) < n <= per_page * t)%Z ->
  t = ((n + per_page - 1) / per_page)%Z.
Proof.
  intros Hpos [Hlo Hhi].
  pose proof (ceil_div_bounds n per_page Hpos) as [Hlo' Hhi'].
  simpl in *. nia.
Qed.

Lemma paginate_total_pages (st : SessionState) (batch : list Email) :
  total_pages (paginate st batch).2
  = ((Z.of_nat (length batch) + emails_per_page st - 1) / emails_per_page st)%Z.
Proof. unfold paginate. by destruct (_ <? _)%Z. Qed.

Lemma take_min_length {A} (l : list A) (n : nat) :
  take (n `min` length l) l = take n l.
Proof.
  destruct (Nat.le_gt_cases n (length l)).
  - by rewrite Nat.min_l.
  - rewrite Nat.min_r by lia. rewrite !take_ge by lia. done.
Qed.

Section Pagination.

Context (st : SessionState) (batch : list Email).
Hypothesis per_page_valid : emails_per_page st ∈ per_page_options.

Local Abbreviation n := (Z.of_nat (length batch)).
Local Abbreviation ps := (emails_per_page st).
Local Abbreviation total := ((n + ps - 1) / ps)%Z.

Lemma ps_positive : (0 < ps)%Z.
Proof. by apply per_page_positive. Qed.

(** The view computed for a requested page inside the valid range. *)
Lemma paginate_valid_page (p : Z) :
  (1 <= p <= total)%Z ->
  (paginate (set_email_page st p) batch).2 =
  {| total_emails := n; total_pages := total; current_page := p;
     start_idx := (p - 1) * ps; end_idx := Z.min (p * ps) n;
     emails := take (Z.to_nat (Z.min (p * ps) n) - Z.to_nat ((p - 1) * ps))
                    (drop (Z.to_nat ((p - 1) * ps)) batch) |}.
Proof.
  intros Hp. unfold paginate. simpl.
  destruct (Z.ltb_spec total p); [lia|]. simpl.
  pose proof ps_positive.
  replace ((p - 1) * ps + ps)%Z with (p * ps)%Z by lia.
  f_equal. apply slice_inside; nia.
Qed.

(** A requested page above the last one shows the last one. *)
Lemma paginate_beyond_last (p : Z) :
  (total < p)%Z ->
  paginate (set_email_page st p) batch = paginate (set_email_page st total) batch.
Proof.
  intros Hp. unfold paginate. simpl.
  destruct (Z.ltb_spec total p); [|lia].
  destruct (Z.ltb_spec total total); [lia|]. done.
Qed.

Lemma pages_prefix (k : nat) :
  (Z.of_nat k <= total)%Z ->
  concat ((fun p : nat => page_items st batch (Z.of_nat p)) <$> seq 1 k)
  = take (k * Z.to_nat ps) batch.
Proof.
  pose proof ps_positive as Hps.
  induction k as [|k IH]; intros Hk; [done|].
  rewrite seq_S, fmap_app, concat_app, IH by lia. simpl.
  rewrite app_nil_r. unfold page_items.
  rewrite paginate_valid_page by lia. simpl.
  pose proof (ceil_div_bounds n ps Hps) as [Hlo _].
  assert (Z.of_nat k * ps < n)%Z as Hkn by nia.
  set (q := Z.to_nat ps). assert (ps = Z.of_nat q) as Hq by lia. clearbody q.
  rewrite Hq in Hkn |- *.
  rewrite <- Nat2Z.inj_mul in Hkn. apply Nat2Z.inj_lt in Hkn.
  replace ((Z.of_nat (S k) - 1) * Z.of_nat q)%Z with (Z.of_nat (k * q))
    by (rewrite Nat2Z.inj_mul; lia).
  rewrite <- Nat2Z.inj_mul, <- Nat2Z.inj_min, !Nat2Z.id.
  rewrite take_take_drop.
  change (S k * q) with (q + k * q).
  rewrite <- (take_min_length batch (q + k * q)). f_equal.
  generalize dependent (k * q). intros. lia.
Qed.

Lemma all_pages_batch : all_pages st batch = batch.
Proof.
  unfold all_pages. rewrite paginate_total_pages.
  pose proof ps_positive as Hps.
  pose proof (ceil_div_bounds n ps Hps) as [Hlo Hhi].
  assert (0 <= total)%Z by nia.
  rewrite pages_prefix by lia. apply take_ge. nia.
Qed.

End Pagination.

(** C1.  For a batch of [n >= 0] messages and a page size among 10, 25, 50
    and 100, the number of pages is the ceiling of [n / pageSize] (0 for an
    empty batch); page [p], for [1 <= p <= totalPages], is the slice of the
    batch from index [(p-1)*pageSize] up to [min(p*pageSize, n)] excluded,
    element by element; and the pages from the first to the last, put end
    to end, are the batch itself. *)
Theorem pagination_correct (st : SessionState) (batch : list Email) :
  emails_per_page st ∈ per_page_options ->
  let n := Z.of_nat (length batch) in
  let ps := emails_per_page st in
  let total := total_pages (paginate st batch).2 in
  (ps * (total - 1) < n <= ps * total)%Z
  /\ (n = 0%Z -> total = 0%Z)
  /\ (forall p, (1 <= p <= total)%Z ->
        let view := (paginate (set_email_page st p) batch).2 in
        current_page view = p
        /\ total_pages view = total
        /\ start_idx view = ((p - 1) * ps)%Z
        /\ end_idx view = Z.min (p * ps) n
        /\ forall i : nat,
             emails view !! i =
             if decide ((p - 1) * ps + Z.of_nat i < Z.min (p * ps) n)%Z
             then batch !! (Z.to_nat ((p - 1) * ps) + i)
             else None)
  /\ all_pages st batch = batch.
Proof.
  intros Hps n ps total.
  pose proof (per_page_positive _ Hps) as Hpos.
  assert (total = ((n + ps - 1) / ps)%Z) as Htotal by apply paginate_total_pages.
  pose proof (ceil_div_bounds n ps Hpos) as Hceil. simpl in Hceil.
  rewrite <- Htotal in Hceil.
  split; [done|]. split; [intros Hn; nia|]. split; [|by apply all_pages_batch].
  intros p Hp view. subst view.
  rewrite Htotal in Hp. rewrite (paginate_valid_page st batch Hps p Hp). simpl.
  repeat split; try done.
  intros i. rewrite lookup_take, lookup_drop.
  fold ps n. repeat case_decide; try done; nia.
Qed.

Lemma pagination_correct_witness :
  emails_per_page (sample_session 1 10) ∈ per_page_options
  /\ total_pages (paginate (sample_session 1 10) sample_batch).2 = 3%Z
  /\ all_pages (sample_session 1 10) sample_batch = sample_batch.
Proof.
  assert (emails_per_page (sample_session 1 10) ∈ per_page_options) as Hps
    by (by left).
  split; [exact Hps|].
  split; [by vm_compute|].
  apply (pagination_correct (sample_session 1 10) sample_batch Hps).
Defined.

(** The page of a non-empty batch that a valid page number selects is not
    empty. *)
Lemma page_items_nonempty (st : SessionState) (batch : list Email) (p : Z) :
  emails_per_page st ∈ per_page_options ->
  (1 <= p <= total_pages (paginate st batch).2)%Z ->
  page_items st batch p <> [].
Proof.
  intros Hps Hp. rewrite paginate_total_pages in Hp.
  pose proof (per_page_positive _ Hps) as Hpos.
  pose proof (ceil_div_bounds (Z.of_nat (length batch)) _ Hpos) as [Hlo _].
  simpl in Hlo. unfold page_items.
  rewrite (paginate_valid_page st batch Hps p Hp). simpl.
  intros Hnil. apply (f_equal length) in Hnil.
  rewrite length_take, length_drop in Hnil. simpl in Hnil. nia.
Qed.

(** The pagination block never raises or shows the empty-inbox notice on a
    non-empty fetched batch: the page rendered is the view of [paginate]. *)
Lemma inbox_page_paginates (P : Provider) (L : EmailLib) (st : SessionState)
    (batch : list Email) (log log' : list event) :
  batch <> [] ->
  fetch_inbox P L st log = (Ret (FetchOk batch), log') ->
  inbox_page P L st log
  = (Ret ((paginate st batch).1, InboxPage (paginate st batch).2), log').
Proof.
  intros Hne Hfetch. unfold inbox_page, bind. rewrite Hfetch.
  destruct batch as [|m batch]; [done|].
  by destruct (paginate st (m :: batch)).
Qed.

(** The empty batch is not paginated: the page shows the notice. *)
Lemma inbox_page_empty (P : Provider) (L : EmailLib) (st : SessionState)
    (log log' : list event) :
  fetch_inbox P L st log = (Ret (FetchOk []), log') ->
  inbox_page P L st log
  = (Ret (st, InboxEmpty), log' ++ [UiInfo "📭 Your inbox is empty!"]).
Proof. intros Hfetch. unfold inbox_page, bind. by rewrite Hfetch. Qed.

(** The upper clamp of [paginate]: from a page number of at least 1 the
    page shown is the requested one capped at the last page. *)
Lemma paginate_clamped (st : SessionState) (batch : list Email) :
  batch <> [] ->
  emails_per_page st ∈ per_page_options ->
  (1 <= email_page st)%Z ->
  let view := (paginate st batch).2 in
  current_page view = Z.min (email_page st) (total_pages view)
  /\ (1 <= current_page view <= total_pages view)%Z
  /\ email_page (paginate st batch).1 = current_page view
  /\ emails_per_page (paginate st batch).1 = emails_per_page st
  /\ emails view = page_items st batch (current_page view).
Proof.
  intros Hne Hps Hpage view.
  pose proof (per_page_positive _ Hps) as Hpos.
  pose proof (ceil_div_bounds (Z.of_nat (length batch)) _ Hpos) as Hceil.
  simpl in Hceil.
  assert (total_pages view
          = ((Z.of_nat (length batch) + emails_per_page st - 1) / emails_per_page st)%Z)
    as Htp by apply paginate_total_pages.
  rewrite <- Htp in Hceil.
  assert (1 <= total_pages view)%Z as Htotal.
  { destruct batch; [done|]. simpl length in *. nia. }
  revert Htotal. rewrite Htp. clear Htp Hceil. subst view.
  unfold page_items, paginate. simpl.
  set (total := (_ / _)%Z). intros Htotal.
  destruct (Z.ltb_spec total (email_page st)); simpl.
  - destruct (Z.ltb_spec total total); [lia|]. simpl.
    rewrite Z.min_r by lia. repeat split; try done; lia.
  - destruct (Z.ltb_spec total (email_page st)); [lia|]. simpl.
    rewrite Z.min_l by lia. repeat split; try done; lia.
Qed.

(** C2, amended.  For a non-empty batch, a valid page size and a
    requested page number of at least 1, the page shown is the requested
    one capped at the last page: it lies in [1, ceil(n/pageSize)], a request
    beyond the last page shows the last page, the session remembers the
    page shown, and the page is never empty nor an error. *)
Theorem page_clamp (st : SessionState) (batch : list Email) :
  batch <> [] ->
  emails_per_page st ∈ per_page_options ->
  (1 <= email_page st)%Z ->
  let st' := (paginate st batch).1 in
  let view := (paginate st batch).2 in
  let total := ((Z.of_nat (length batch) + emails_per_page st - 1) / emails_per_page st)%Z in
  total_pages view = total
  /\ current_page view = Z.min (email_page st) total
  /\ (1 <= current_page view <= total)%Z
  /\ email_page st' = current_page view
  /\ emails view = page_items st batch (current_page view)
  /\ emails view <> []
  /\ ((total < email_page st)%Z -> emails view = page_items st batch total)
  /\ (forall P L log log',
        fetch_inbox P L st log = (Ret (FetchOk batch), log') ->
        inbox_page P L st log = (Ret (st', InboxPage view), log')).
Proof.
  intros Hne Hps Hpage st' view total.
  assert (total_pages view = total) as Htp by apply paginate_total_pages.
  destruct (paginate_clamped st batch Hne Hps Hpage)
    as (Hcur & Hrange & Hst & _ & Hitems).
  fold view in Hcur, Hrange, Hst, Hitems. rewrite Htp in Hcur, Hrange.
  split; [done|]. split; [done|]. split; [done|]. split; [done|].
  split; [done|]. split.
  { rewrite Hitems. apply page_items_nonempty; [done|]. fold view. lia. }
  split.
  { intros Hbeyond. rewrite Hitems, Hcur. f_equal. lia. }
  intros P L log log' Hfetch. by apply inbox_page_paginates.
Qed.

Lemma page_clamp_witness :
  (sample_batch <> []
   /\ emails_per_page (sample_session 7 10) ∈ per_page_options
   /\ (1 <= email_page (sample_session 7 10))%Z)
  /\ current_page (paginate (sample_session 7 10) sample_batch).2 = 3%Z.
Proof.
  assert (sample_batch <> []) as Hne by (by vm_compute).
  assert (emails_per_page (sample_session 7 10) ∈ per_page_options) as Hps
    by (by left).
  assert (1 <= email_page (sample_session 7 10))%Z as Hpage by (by vm_compute).
  split; [done|].
  destruct (page_clamp (sample_session 7 10) sample_batch Hne Hps Hpage)
    as (_ & -> & _).
  by vm_compute.
Defined.

(** C2 as stated fails at page number 0.  The code clamps the page number
    from above only: a session on page 0 is shown page number 0 with no
    message, although the batch has 23 messages. *)
Lemma page_zero_not_clamped :
  let view := (paginate (sample_session 0 10) sample_batch).2 in
  sample_batch <> []
  /\ current_page view = 0%Z
  /\ emails view = []
  /\ ~ ((1 <= current_page view <= total_pages view)%Z /\ emails view <> []).
Proof.
  assert ((paginate (sample_session 0 10) sample_batch).2
          = {| total_emails := 23; total_pages := 3; current_page := 0;
               start_idx := -10; end_idx := 0; emails := [] |}) as ->
    by (by vm_compute).
  simpl. split; [by vm_compute|]. split; [done|]. split; [done|].
  intros [? _]. lia.
Qed.

(** The page number of the session never goes below 1: the controls of the
    inbox page keep it there. *)
Lemma press_keeps_page_valid (c : control) (st st' : SessionState) (batch : list Email) :
  batch <> [] ->
  emails_per_page st ∈ per_page_options ->
  (1 <= email_page st)%Z ->
  press c (paginate st batch).2 (paginate st batch).1 = Some st' ->
  (1 <= email_page st')%Z /\ emails_per_page st' ∈ per_page_options.
Proof.
  intros Hne Hps Hpage.
  destruct (paginate_clamped st batch Hne Hps Hpage) as (_ & Hcur & Hst & Hpp & _).
  destruct c; simpl; repeat case_match; intros [= <-]; simpl;
    rewrite ?Hpp; try (split; [lia|done]).
  split; [lia|]. by eapply bool_decide_eq_true_1.
Qed.

(** ** Credential round trip *)

Lemma credentials_to_dict_lookup (c : Credentials) :
  let d := credentials_to_dict c in
  d !! "token" = Some (token c)
  /\ d !! "refresh_token" = Some (refresh_token c)
  /\ d !! "token_uri" = Some (token_uri c)
  /\ d !! "client_id" = Some (client_id c)
  /\ d !! "client_secret" = Some (client_secret c)
  /\ d !! "scopes" = Some (if value_truthy (scopes c)
                           then VList (value_list (scopes c)) else VList []).
Proof. unfold credentials_to_dict. repeat split; by simplify_map_eq. Qed.

(** The serialised scopes of a list of scopes is that list. *)
Lemma serialised_scopes_list (l : list string) :
  (if value_truthy (VList l) then VList (value_list (VList l)) else VList [])
  = VList l.
Proof. by destruct l. Qed.

(** Scopes that are [None] come back as the empty list. *)
Lemma credentials_none_scopes (c : Credentials) :
  scopes c = VNone ->
  scopes <$> credentials_from_dict (credentials_to_dict c) = Some (VList []).
Proof.
  intros Hs. destruct (credentials_to_dict_lookup c) as (Ht & _ & _ & _ & _ & Hsc).
  unfold credentials_from_dict, dict_get. rewrite Ht, Hsc, Hs. done.
Qed.

(** C4.  Deserialising the serialised form of a delegated credential gives
    the credential back, field for field (token, refresh token, token
    endpoint, client id, client secret, scopes), whatever the fields hold:
    in particular with no refresh token and with an empty list of scopes.
    The serialised form always holds a sequence under ['scopes'], the empty
    one for empty scopes, never [None] and never a missing key. *)
Theorem credentials_round_trip (c : Credentials) (l : list string) :
  scopes c = VList l ->
  credentials_from_dict (credentials_to_dict c) = Some c
  /\ credentials_to_dict c !! "scopes" = Some (VList l)
  /\ (refresh_token c = VNone ->
      credentials_to_dict c !! "refresh_token" = Some VNone)
  /\ (l = [] -> credentials_to_dict c !! "scopes" = Some (VList [])).
Proof.
  intros Hs.
  destruct (credentials_to_dict_lookup c) as (Ht & Hr & Hu & Hi & Hsec & Hsc).
  rewrite Hs, serialised_scopes_list in Hsc.
  split.
  { unfold credentials_from_dict, dict_get.
    rewrite Ht, Hr, Hu, Hi, Hsec, Hsc. simpl. rewrite <- Hs. by destruct c. }
  split; [done|]. split; [by intros <-|by intros <-].
Qed.

Lemma credentials_round_trip_witness :
  scopes bare_credentials = VList []
  /\ credentials_from_dict (credentials_to_dict bare_credentials) = Some bare_credentials.
Proof.
  split; [reflexivity|].
  apply (credentials_round_trip bare_credentials [] eq_refl).
Defined.

(** ** Compose: validation before dispatch *)

(** With all three fields filled in, an App Password session does reach
    the SMTP transport: its first call is logged. *)
Lemma compose_page_dispatches (P : Provider) (L : EmailLib)
    (to_email subject body : string) (log : list event) :
  Py.truthy to_email = true -> Py.truthy subject = true -> Py.truthy body = true ->
  exists rest,
    (compose_page P L (sample_session 1 25) to_email subject body log).2
    = log ++ SmtpConnect SMTP_SERVER SMTP_PORT :: rest.
Proof.
  intros Hto Hsubject Hbody. unfold compose_page.
  rewrite Hto, Hsubject, Hbody. simpl.
  unfold bind, send_email, try_except, perform. simpl.
  destruct (smtp_connect P SMTP_SERVER SMTP_PORT) as [[]|e]; simpl.
  2: { destruct (exn_kind e); simpl; rewrite <- app_assoc; eauto. }
  destruct (smtp_starttls P) as [[]|e]; simpl.
  2: { destruct (exn_kind e); simpl; rewrite <- !app_assoc; eauto. }
  destruct (smtp_login P _ _) as [[]|e]; simpl.
  2: { destruct (exn_kind e); simpl; rewrite <- !app_assoc; eauto. }
  destruct (smtp_send_message P _ _ _ _) as [[]|e]; simpl.
  2: { destruct (exn_kind e); simpl; rewrite <- !app_assoc; eauto. }
  destruct (smtp_quit P) as [[]|e]; simpl.
  2: { destruct (exn_kind e); simpl; rewrite <- !app_assoc; eauto. }
  rewrite <- !app_assoc. eauto.
Qed.

(** C5.  Whatever the session, the subject and the body, a send with an
    empty recipient is refused by the validation of the form: the page
    reports the error to the user and returns, and what it adds to the log
    is that report alone, so that no call to either transport (SMTP or
    Gmail API), nor any other call to the provider, is made. *)
Theorem compose_page_empty_recipient (P : Provider) (L : EmailLib)
    (st : SessionState) (subject body : string) (log : list event) :
  compose_page P L st "" subject body log
  = (Ret tt, log ++ [UiError "⚠️ Please enter a recipient email address."])
  /\ filter (fun ev => is_network ev = true)
            (drop (length log) (compose_page P L st "" subject body log).2) = [].
Proof.
  assert (compose_page P L st "" subject body log
          = (Ret tt, log ++ [UiError "⚠️ Please enter a recipient email address."]))
    as -> by done.
  split; [done|]. simpl. by rewrite drop_app_length.
Qed.

(** ** Transport A: authentication *)

Lemma clash_prefix (needle p e : string) :
  clash needle p = true -> String.prefix needle (p +:+ e) = false.
Proof.
  revert p. induction needle as [|a needle IH]; intros [|b p]; simpl; try done.
  destruct (Ascii.eqb_spec a b) as [->|Hne].
  - intros Hclash. destruct (ascii_dec b b); [by apply IH | done].
  - intros _. by destruct (ascii_dec a b).
Qed.

(** A needle that starts nowhere inside [p] occurs in [p +:+ e] exactly
    when it occurs in [e]. *)
Lemma clear_of_str_in (needle p e : string) :
  clear_of needle p = true -> Py.str_in needle (p +:+ e) = Py.str_in needle e.
Proof.
  induction p as [|c p IH]; [done|].
  intros [Hclash Hclear]%andb_true_iff.
  change (Py.str_in needle (String c p +:+ e))
    with (String.prefix needle (String c p +:+ e) || Py.str_in needle (p +:+ e)).
  rewrite (clash_prefix _ _ _ Hclash). simpl. by apply IH.
Qed.

(** [Py.str_in] decides [occurs]. *)
Lemma prefix_occurs (needle text : string) :
  String.prefix needle text = true <-> exists after, text = needle +:+ after.
Proof.
  revert text. induction needle as [|a needle IH]; intros text.
  - split; [intros _; by exists text|by destruct text].
  - destruct text as [|b text]; simpl.
    + split; [done|]. intros [after Hafter]. by rewrite string_app_cons in Hafter.
    + destruct (ascii_dec a b) as [->|Hne].
      * rewrite IH. split; intros [after Hafter]; exists after.
        -- by rewrite string_app_cons, <- Hafter.
        -- rewrite string_app_cons in Hafter. by injection Hafter.
      * split; [done|]. intros [after Hafter].
        rewrite string_app_cons in Hafter. by injection Hafter.
Qed.

Lemma str_in_occurs (needle text : string) :
  Py.str_in needle text = true <-> occurs needle text.
Proof.
  unfold occurs. induction text as [|c text IH].
  - change (Py.str_in needle "") with (String.prefix needle "" || false).
    rewrite orb_false_r, prefix_occurs. split.
    + intros [after Hafter]. by exists "", after.
    + intros ([|b before] & after & Hbefore); [by exists after|].
      by rewrite string_app_cons in Hbefore.
  - change (Py.str_in needle (String c text))
      with (String.prefix needle (String c text) || Py.str_in needle text).
    rewrite orb_true_iff, IH, prefix_occurs. split.
    + intros [[after Hafter]|(before & after & Hafter)].
      * by exists "", after.
      * exists (String c before), after. by rewrite string_app_cons, <- Hafter.
    + intros ([|b before] & after & Hbefore).
      * left. by exists after.
      * right. rewrite string_app_cons in Hbefore. injection Hbefore as -> Htext.
        by exists before, after.
Qed.

Lemma str_in_not_occurs (needle text : string) :
  Py.str_in needle text = false <-> ~ occurs needle text.
Proof.
  rewrite <- str_in_occurs. by destruct (Py.str_in needle text).
Qed.

(** The test of [authenticate], in terms of occurrences. *)
Lemma is_bad_credentials_occurs (U : Unicode) (error_msg : string) :
  is_bad_credentials U error_msg = true
  <-> occurs "AUTHENTICATIONFAILED" (str_upper U error_msg)
      \/ occurs "Invalid credentials" error_msg.
Proof. unfold is_bad_credentials. by rewrite orb_true_iff, !str_in_occurs. Qed.

Lemma authenticate_result (P : Provider) (U : Unicode)
    (email_address app_password : string) (log : list event) :
  (authenticate P U email_address app_password log).1 =
  match imap_handshake P email_address app_password with
  | Ret _ => Ret (true, "Authentication successful!")
  | Raise e =>
      match exn_kind e with
      | IMAP4_error =>
          if is_bad_credentials U (exn_str e) then Ret (false, APP_PASSWORD_GUIDANCE)
          else Ret (false, "Authentication failed: " +:+ exn_str e)
      | _ => Ret (false, "Connection error: " +:+ exn_str e)
      end
  end.
Proof.
  unfold authenticate, imap_handshake, try_except, bind, perform, ret. simpl.
  destruct (imap_connect P IMAP_SERVER) as [[]|e]; simpl.
  2: { destruct (exn_kind e); try done. by destruct (is_bad_credentials _ _). }
  destruct (imap_login P _ _) as [[]|e]; simpl.
  2: { destruct (exn_kind e); try done. by destruct (is_bad_credentials _ _). }
  destruct (imap_logout P) as [[]|e]; simpl; [done|].
  destruct (exn_kind e); try done. by destruct (is_bad_credentials _ _).
Qed.

(** C6, amended.  [authenticate] recognises a rejected login by the text
    of the IMAP error, at whichever of its calls it is raised: when the
    text has AUTHENTICATIONFAILED in any letter case, or "Invalid
    credentials", the result is a failure with the guidance to use an App
    Password, which covers the rejection of Gmail, "[AUTHENTICATIONFAILED]
    Invalid credentials (Failure)".  An IMAP error with any other text, a
    login rejected in other words included, gives "Authentication failed: "
    followed by the text, and any other exception "Connection error: "
    followed by its text: the code adds no guidance there, so that the
    message mentions an App Password exactly when the text does. *)
Theorem authenticate_failure_guidance (P : Provider) (U : Unicode)
    (email_address app_password : string) (log : list event) :
  let result := (authenticate P U email_address app_password log).1 in
  let session := imap_handshake P email_address app_password in
  (forall e, session = Raise e -> exn_kind e = IMAP4_error ->
     occurs "AUTHENTICATIONFAILED" (str_upper U (exn_str e))
     \/ occurs "Invalid credentials" (exn_str e) ->
     result = Ret (false, APP_PASSWORD_GUIDANCE)
     /\ occurs "App Password" APP_PASSWORD_GUIDANCE)
  /\ (forall e, session = Raise e -> exn_kind e = IMAP4_error ->
        exn_str e = "b'[AUTHENTICATIONFAILED] Invalid credentials (Failure)'" ->
        result = Ret (false, APP_PASSWORD_GUIDANCE))
  /\ (forall e, session = Raise e -> exn_kind e = IMAP4_error ->
        ~ occurs "AUTHENTICATIONFAILED" (str_upper U (exn_str e)) ->
        ~ occurs "Invalid credentials" (exn_str e) ->
        let message := "Authentication failed: " +:+ exn_str e in
        result = Ret (false, message)
        /\ (occurs "App Password" message <-> occurs "App Password" (exn_str e)))
  /\ (forall e, session = Raise e -> exn_kind e <> IMAP4_error ->
        let message := "Connection error: " +:+ exn_str e in
        result = Ret (false, message)
        /\ (occurs "App Password" message <-> occurs "App Password" (exn_str e))).
Proof.
  intros result session. subst result. rewrite authenticate_result. fold session.
  split; [|split; [|split]].
  - intros e -> -> Hoccurs.
    rewrite (proj2 (is_bad_credentials_occurs U (exn_str e)) Hoccurs).
    split; [done|]. apply str_in_occurs. by vm_compute.
  - intros e -> -> Htext.
    rewrite (proj2 (is_bad_credentials_occurs U (exn_str e))); [done|].
    right. rewrite Htext. apply str_in_occurs. by vm_compute.
  - intros e -> -> Hupper Hplain message.
    assert (is_bad_credentials U (exn_str e) = false) as ->.
    { destruct (is_bad_credentials U (exn_str e)) eqn:Hbad; [|done].
      apply is_bad_credentials_occurs in Hbad as [?|?]; done. }
    split; [done|]. subst message.
    rewrite <- !str_in_occurs, clear_of_str_in; [done|by vm_compute].
  - intros e -> Hkind message. split.
    + by destruct (exn_kind e).
    + subst message.
      rewrite <- !str_in_occurs, clear_of_str_in; [done|by vm_compute].
Qed.

Lemma authenticate_failure_guidance_witness :
  let P := mock_provider login_rejected [] [] in
  let e := mkExn IMAP4_error "b'[AUTHENTICATIONFAILED] Invalid credentials (Failure)'" in
  (imap_handshake P "user@example.com" "wrongpass" = Raise e
   /\ exn_kind e = IMAP4_error
   /\ exn_str e = "b'[AUTHENTICATIONFAILED] Invalid credentials (Failure)'")
  /\ (authenticate P ascii_upper "user@example.com" "wrongpass" []).1
     = Ret (false, APP_PASSWORD_GUIDANCE).
Proof.
  intros P e.
  assert (imap_handshake P "user@example.com" "wrongpass" = Raise e) as Hs
    by reflexivity.
  split; [done|].
  destruct (authenticate_failure_guidance P ascii_upper "user@example.com" "wrongpass" [])
    as (_ & Hgmail & _).
  apply (Hgmail e Hs eq_refl eq_refl).
Defined.

(** C6 as stated fails.  A server that rejects the login with a text that
    has neither marker, "LOGIN failed.", gets the generic message, without
    the guidance.  And an IMAP error that is not a rejected login, raised
    when the connection is opened, gets the guidance when its text has
    "Invalid credentials". *)
Lemma login_rejection_not_recognised :
  let rejected := mkExn IMAP4_error "b'LOGIN failed.'" in
  let refused := mkExn IMAP4_error "b'Invalid credentials for proxy'" in
  let P := mock_provider (Raise rejected) [] [] in
  let Q := with_connect (mock_provider (Ret tt) [] []) (Raise refused) in
  (imap_connect P IMAP_SERVER = Ret tt
   /\ imap_login P "user@example.com" "wrongpass" = Raise rejected
   /\ (authenticate P ascii_upper "user@example.com" "wrongpass" []).1
      = Ret (false, "Authentication failed: b'LOGIN failed.'")
   /\ mentions_app_password
        "Authentication failed: b'LOGIN failed.'"
      = false)
  /\ (imap_connect Q IMAP_SERVER = Raise refused
      /\ (authenticate Q ascii_upper "user@example.com" "abcdefghijklmnop" []).1
         = Ret (false, APP_PASSWORD_GUIDANCE)).
Proof. by vm_compute. Qed.

(** An IMAP error with another text, and a failure to connect, are reported
    with the generic messages. *)
Example authenticate_generic_errors :
  (authenticate (mock_provider (Raise (mkExn IMAP4_error "b'[ALERT] Web login required'")) [] [])
     ascii_upper "user@example.com" "abcdefghijklmnop" []).1
  = Ret (false, "Authentication failed: b'[ALERT] Web login required'")
  /\ (authenticate (mock_provider (Raise (mkExn OtherException "timed out")) [] [])
        ascii_upper "user@example.com" "abcdefghijklmnop" []).1
     = Ret (false, "Connection error: timed out").
Proof. by vm_compute. Qed.

(** ** Transport A: the selection of the latest messages *)

Lemma select_latest_zero (email_ids : list string) :
  select_latest email_ids 0 = rev email_ids.
Proof.
  unfold select_latest. destruct (_ <? _)%Z; [|done].
  f_equal. apply slice_suffix_zero.
Qed.

Lemma select_latest_positive (email_ids : list string) (count : Z) :
  (1 <= count)%Z ->
  select_latest email_ids count
  = rev (drop (length email_ids - Z.to_nat count) email_ids).
Proof.
  intros Hcount. unfold select_latest.
  destruct (Z.ltb_spec count (Z.of_nat (length email_ids))).
  - by rewrite slice_suffix by lia.
  - replace (length email_ids - Z.to_nat count)%nat with 0%nat by lia. done.
Qed.

Lemma select_latest_negative (email_ids : list string) (count : Z) :
  (count < 0)%Z ->
  select_latest email_ids count = rev (drop (Z.to_nat (- count)) email_ids).
Proof.
  intros Hcount. unfold select_latest.
  destruct (Z.ltb_spec count (Z.of_nat (length email_ids))); [|lia].
  f_equal. unfold Py.slice, Py.slice_bound.
  destruct (Z.ltb_spec (- count) 0); [lia|].
  rewrite take_ge by (rewrite length_drop; lia).
  destruct (Z.le_gt_cases (- count) (Z.of_nat (length email_ids))).
  - by rewrite Z.min_l by lia.
  - rewrite Z.min_r by lia. by rewrite !drop_ge by lia.
Qed.

Lemma select_latest_length (email_ids : list string) (count : Z) :
  (1 <= count)%Z ->
  Z.of_nat (length (select_latest email_ids count))
  = Z.min count (Z.of_nat (length email_ids)).
Proof.
  intros Hcount. rewrite select_latest_positive by done.
  rewrite length_rev, length_drop. lia.
Qed.

Lemma select_latest_Forall (Q : string -> Prop) (email_ids : list string) (count : Z) :
  Forall Q email_ids -> Forall Q (select_latest email_ids count).
Proof.
  intros HQ. unfold select_latest. apply List.Forall_rev.
  destruct (_ <? _)%Z; [|done]. unfold Py.slice.
  by apply Forall_take, Forall_drop.
Qed.

(** ** Transport A: the fetch loop *)

(** A record that was built has the identifier of its message and a
    truncated body. *)
Lemma email_of_raw_fields (L : EmailLib) (email_id raw : string) (email : Email) :
  email_of_raw L email_id raw = Ret email ->
  e_id email = email_id /\ (Py.len (e_body email) <= 503)%Z.
Proof.
  unfold email_of_raw, obind.
  destruct (decode_mime_header L _) as [subject|]; [|done].
  destruct (decode_mime_header L _) as [from_addr|]; [|done].
  destruct (format_date L _) as [date|]; [|done].
  intros [= <-]. simpl. split; [done|apply truncate_body_length].
Qed.

(** A response with one tuple gives the record of its raw message. *)
Lemma emails_of_response_one (L : EmailLib) (email_id envelope raw : string)
    (msg_data : list response_part) (email : Email) :
  List.filter is_tuple msg_data = [RespTuple envelope raw] ->
  email_of_raw L email_id raw = Ret email ->
  emails_of_response L email_id msg_data = Ret [email].
Proof.
  intros Htuples Hemail.
  induction msg_data as [|[envelope' raw'|b] msg_data IH]; simpl in *; [done| |by apply IH].
  injection Htuples as -> -> Hrest. rewrite Hemail. simpl.
  assert (emails_of_response L email_id msg_data = Ret []) as ->; [|done].
  clear -Hrest. induction msg_data as [|[?|?] msg_data IH]; simpl in *; [done|done|by apply IH].
Qed.

(** The loop on identifiers that are fetched either with status OK and one
    raw message whose record can be built, or with another status: it
    appends the records of the former and logs one fetch per identifier. *)
Lemma fetch_loop_filter (P : Provider) (L : EmailLib) (ok : string -> bool)
    (raw_of : string -> string) (record_of : string -> Email)
    (email_ids : list string) :
  Forall (fun i =>
            if ok i
            then (exists msg_data envelope,
                    imap_fetch P i = Ret ("OK", msg_data)
                    /\ List.filter is_tuple msg_data = [RespTuple envelope (raw_of i)])
                 /\ email_of_raw L i (raw_of i) = Ret (record_of i)
            else exists status msg_data,
                imap_fetch P i = Ret (status, msg_data) /\ status <> "OK")
         email_ids ->
  forall acc log,
    fetch_loop P L email_ids acc log
    = (Ret (acc ++ (record_of <$> List.filter ok email_ids)),
       log ++ (ImapFetch <$> email_ids)).
Proof.
  induction 1 as [|i email_ids Hi _ IH]; intros acc log; simpl.
  - by rewrite !app_nil_r.
  - unfold bind, perform, lift. destruct (ok i).
    + destruct Hi as [(msg_data & envelope & -> & Htuples) Hrecord]. simpl.
      rewrite (emails_of_response_one L i envelope _ msg_data _ Htuples Hrecord).
      rewrite IH, <- !app_assoc. done.
    + destruct Hi as (status & msg_data & -> & Hstatus).
      apply String.eqb_neq in Hstatus. rewrite Hstatus, IH, <- !app_assoc. done.
Qed.

Lemma fetch_emails_filter (P : Provider) (L : EmailLib)
    (email_address app_password : string) (count : Z) (log : list event)
    (email_ids : list string) (ok : string -> bool)
    (raw_of : string -> string) (record_of : string -> Email) :
  mailbox_opened P email_address app_password "OK" email_ids ->
  imap_logout P = Ret tt ->
  Forall (fun i =>
            if ok i
            then (exists msg_data envelope,
                    imap_fetch P i = Ret ("OK", msg_data)
                    /\ List.filter is_tuple msg_data = [RespTuple envelope (raw_of i)])
                 /\ email_of_raw L i (raw_of i) = Ret (record_of i)
            else exists status msg_data,
                imap_fetch P i = Ret (status, msg_data) /\ status <> "OK")
         email_ids ->
  fetch_emails P L email_address app_password count log
  = (Ret (FetchOk (record_of <$> List.filter ok (select_latest email_ids count))),
     log ++ fetch_trace email_address app_password (select_latest email_ids count)).
Proof.
  intros (Hconnect & Hlogin & Hselect & Hsearch) Hlogout Hfetch.
  unfold fetch_emails, try_except, bind, perform, ret.
  rewrite Hconnect, Hlogin, Hselect, Hsearch. simpl.
  rewrite (fetch_loop_filter P L ok raw_of record_of _
             (select_latest_Forall _ _ count Hfetch)).
  rewrite Hlogout. unfold fetch_trace. simpl. by rewrite <- !app_assoc.
Qed.

(** A served mailbox with one raw message per identifier whose records can
    all be built: the batch is the records of the selection, in order. *)
Lemma fetch_emails_one_each (P : Provider) (L : EmailLib)
    (email_address app_password : string) (count : Z) (log : list event)
    (email_ids : list string) (raw_of : string -> string) (record_of : string -> Email) :
  mailbox_served P email_address app_password email_ids ->
  one_message_each P email_ids raw_of ->
  records_built L email_ids raw_of record_of ->
  fetch_emails P L email_address app_password count log
  = (Ret (FetchOk (record_of <$> select_latest email_ids count)),
     log ++ fetch_trace email_address app_password (select_latest email_ids count)).
Proof.
  intros (Hconnect & Hlogin & Hselect & Hsearch & _ & Hlogout) Hone Hbuilt.
  rewrite (fetch_emails_filter P L _ _ count log email_ids (fun _ => true)
             raw_of record_of); [|done|done|].
  - assert (forall l : list string, List.filter (fun _ => true) l = l) as Hall.
    { induction l as [|i l IH]; [done|]. simpl. by rewrite IH. }
    by rewrite Hall.
  - unfold one_message_each, records_built in *.
    rewrite Forall_forall in Hone, Hbuilt. apply Forall_forall.
    intros i Hi. split; [by apply Hone|by apply Hbuilt].
Qed.

Lemma records_built_ids (L : EmailLib) (raw_of : string -> string)
    (record_of : string -> Email) (email_ids : list string) :
  records_built L email_ids raw_of record_of ->
  e_id <$> (record_of <$> email_ids) = email_ids.
Proof.
  induction 1 as [|i email_ids Hi _ IH]; [done|].
  rewrite !fmap_cons, IH. f_equal. by apply (email_of_raw_fields L i (raw_of i)).
Qed.

(** C10.  With [count = 0] the selection [email_ids[-count:]] is the whole
    list: [fetch_emails] then returns every message of the mailbox, newest
    first, rather than none: from a server that answers every fetch with
    one raw message whose record can be built, the batch has one record per
    message of the mailbox, in the reverse order of the search.  On a
    non-empty mailbox the number of selected messages is
    [min(count, total)] exactly when [count >= 1]. *)
Theorem count_zero_selects_all :
  (forall email_ids, select_latest email_ids 0 = rev email_ids)
  /\ (forall email_ids count, email_ids <> [] ->
        Z.of_nat (length (select_latest email_ids count))
        = Z.min count (Z.of_nat (length email_ids))
        <-> (1 <= count)%Z)
  /\ (forall P L email_address app_password email_ids log raw_of record_of,
        mailbox_served P email_address app_password email_ids ->
        one_message_each P email_ids raw_of ->
        records_built L email_ids raw_of record_of ->
        exists emails,
          (fetch_emails P L email_address app_password 0 log).1 = Ret (FetchOk emails)
          /\ emails = record_of <$> rev email_ids
          /\ e_id <$> emails = rev email_ids
          /\ length emails = length email_ids).
Proof.
  split; [exact select_latest_zero|]. split.
  - intros email_ids count Hne. split; [|apply select_latest_length].
    intros Hlen. destruct (Z.le_gt_cases 1 count) as [|Hcount]; [done|exfalso].
    assert (0 < length email_ids)%nat by (destruct email_ids; [done|simpl; lia]).
    destruct (Z.eq_dec count 0%Z) as [->|].
    + rewrite select_latest_zero, length_rev in Hlen. lia.
    + lia.
  - intros P L email_address app_password email_ids log raw_of record_of
      Hserved Hone Hbuilt.
    eexists. split.
    { rewrite (fetch_emails_one_each P L _ _ 0 log email_ids raw_of record_of
                 Hserved Hone Hbuilt). simpl. by rewrite select_latest_zero. }
    split; [done|]. split.
    + apply (records_built_ids L raw_of). by apply List.Forall_rev.
    + by rewrite length_fmap, length_rev.
Qed.

(** The stand-in provider serves its mailbox, one message per identifier,
    and the stand-in library builds their records. *)
Lemma mock_mailbox_served (api_box : list (string * ApiMessage))
    (email_address app_password : string) :
  mailbox_served (mock_provider (Ret tt) sample_mailbox api_box)
    email_address app_password ["1"; "2"; "3"].
Proof.
  repeat split; repeat (apply Forall_cons; split); try apply Forall_nil;
    by eexists.
Qed.

Lemma mock_one_message_each (api_box : list (string * ApiMessage)) :
  one_message_each (mock_provider (Ret tt) sample_mailbox api_box) ["1"; "2"; "3"]
    (fun email_id => default "" (assoc email_id sample_mailbox)).
Proof.
  repeat (apply Forall_cons; split); try apply Forall_nil;
    do 2 eexists; split; reflexivity.
Qed.

Lemma mock_records_built :
  records_built mock_lib ["1"; "2"; "3"]
    (fun email_id => default "" (assoc email_id sample_mailbox))
    (mock_record sample_mailbox).
Proof. repeat (apply Forall_cons; split); try apply Forall_nil; reflexivity. Qed.

Lemma count_zero_selects_all_witness :
  let P := mock_provider (Ret tt) sample_mailbox [] in
  let raw_of := fun email_id => default "" (assoc email_id sample_mailbox) in
  (["1"; "2"; "3"] <> []
   /\ mailbox_served P "user@example.com" "abcdefghijklmnop" ["1"; "2"; "3"]
   /\ one_message_each P ["1"; "2"; "3"] raw_of
   /\ records_built mock_lib ["1"; "2"; "3"] raw_of (mock_record sample_mailbox))
  /\ (Z.of_nat (length (select_latest ["1"; "2"; "3"] 0))
      = Z.min 0 (Z.of_nat (length ["1"; "2"; "3"])) <-> (1 <= 0)%Z)
  /\ exists emails,
       (fetch_emails P mock_lib "user@example.com" "abcdefghijklmnop" 0 []).1
       = Ret (FetchOk emails)
       /\ e_id <$> emails = ["3"; "2"; "1"]
       /\ length emails = 3%nat.
Proof.
  intros P raw_of.
  assert (["1"; "2"; "3"] <> []) as Hne by done.
  pose proof (mock_mailbox_served [] "user@example.com" "abcdefghijklmnop") as Hserved.
  pose proof (mock_one_message_each []) as Hone.
  pose proof mock_records_built as Hbuilt.
  destruct count_zero_selects_all as (_ & Hlen & Hfetch).
  split; [done|]. split.
  - apply (Hlen ["1"; "2"; "3"] 0%Z Hne).
  - destruct (Hfetch P mock_lib _ _ _ [] _ _ Hserved Hone Hbuilt)
      as (emails & Hrun & _ & Hids & Hlength).
    exists emails. split; [exact Hrun|]. split; [exact Hids|exact Hlength].
Defined.

(** C7 at [count = 0].  The mailbox holds three messages and none is asked
    for; [fetch_emails] returns the three of them, newest first, where the
    minimum of the count and of the number of messages is 0. *)
Theorem fetch_emails_count_zero :
  exists emails,
    (fetch_emails (mock_provider (Ret tt) sample_mailbox []) mock_lib
       "user@example.com" "abcdefghijklmnop" 0 []).1 = Ret (FetchOk emails)
    /\ e_id <$> emails = ["3"; "2"; "1"]
    /\ Z.of_nat (length emails) <> Z.min 0 (Z.of_nat (length sample_mailbox)).
Proof. eexists. split; [by vm_compute|]. split; [done|]. by vm_compute. Qed.

(** For a count of at least 1 the selection is the one the specification
    describes: the last [count] identifiers (all of them when there are
    fewer), newest first. *)
Lemma select_latest_spec (email_ids : list string) (count : Z) :
  (1 <= count)%Z ->
  exists older latest,
    email_ids = older ++ latest
    /\ select_latest email_ids count = rev latest
    /\ Z.of_nat (length latest) = Z.min count (Z.of_nat (length email_ids)).
Proof.
  intros Hcount.
  exists (take (length email_ids - Z.to_nat count) email_ids),
         (drop (length email_ids - Z.to_nat count) email_ids).
  split; [by rewrite take_drop|]. split; [by apply select_latest_positive|].
  rewrite length_drop. lia.
Qed.

(** ** Transport A: the date of a message *)

Lemma str_slice_cut (text : string) (n : nat) :
  cut_at n text (Py.str_slice text None (Some (Z.of_nat n))).
Proof.
  pose proof (str_slice_prefix_length text (Z.of_nat n) ltac:(lia)) as Hlen.
  rewrite Nat2Z.id in Hlen.
  destruct (Nat.le_gt_cases (String.length text) n) as [Hle|Hgt].
  - left. split; [done|].
    rewrite str_slice_prefix by lia.
    rewrite take_ge by (rewrite length_list_ascii_of_string; lia).
    apply string_of_list_ascii_of_string.
  - right. split; [done|]. split; [lia|].
    eexists. apply str_slice_prefix_split. lia.
Qed.

(** For a Date header read as text the fallback is the one the
    specification describes. *)
Lemma format_date_on_failure (L : EmailLib) (date_str : string) :
  parse_date L (HStr date_str) = None ->
  exists date,
    format_date L (HStr date_str) = Ret date
    /\ (date_str = "" -> date = "Unknown")
    /\ (date_str <> "" -> cut_at 20 date_str date).
Proof.
  intros Hparse. unfold format_date. rewrite Hparse.
  eexists. split; [reflexivity|].
  split; [by intros ->|]. intros Hne.
  destruct date_str; [done|]. apply (str_slice_cut _ 20).
Qed.

(** The record of a message whose Subject and From headers decode and
    whose Date header is text that does not parse: it is built, with the
    fallback as its date. *)
Lemma email_of_raw_text_date (L : EmailLib) (email_id raw date_str subject from_addr : string) :
  let msg := message_from_bytes L raw in
  decode_mime_header L (Some (default (HStr "No Subject") (msg_get msg "Subject")))
  = Ret subject ->
  decode_mime_header L (Some (default (HStr "Unknown") (msg_get msg "From")))
  = Ret from_addr ->
  default (HStr "") (msg_get msg "Date") = HStr date_str ->
  parse_date L (HStr date_str) = None ->
  exists email,
    email_of_raw L email_id raw = Ret email
    /\ e_id email = email_id
    /\ (date_str = "" -> e_date email = "Unknown")
    /\ (date_str <> "" -> cut_at 20 date_str (e_date email)).
Proof.
  intros msg Hsubject Hfrom Hdate Hparse.
  destruct (format_date_on_failure L date_str Hparse) as (date & Hformat & Hempty & Hcut).
  unfold email_of_raw, obind. fold msg. rewrite Hsubject, Hfrom, Hdate, Hformat.
  eexists. split; [reflexivity|]. by simpl.
Qed.

(** For a Date header read as a [Header] object the fallback raises, and
    with it the construction of the record. *)
Lemma format_date_header_object (L : EmailLib) (raw : string) :
  parse_date L (HObj raw) = None ->
  format_date L (HObj raw) = Raise not_subscriptable.
Proof. intros Hparse. unfold format_date. by rewrite Hparse. Qed.

(** C8 on a Date header with a byte outside ASCII.  The mailbox holds
    three messages; the Date header of the second, "jeu., 1 février 2024
    09:00", is read as a [Header] object and does not parse.  The fallback
    [date_str[:20]] raises on it, and [fetch_emails] returns the failure
    "Error fetching emails: 'Header' object is not subscriptable" instead
    of three records. *)
Theorem date_fallback_header_object :
  msg_get (message_from_bytes mock_lib "jeu., 1 février 2024 09:00") "Date"
  = Some (HObj "jeu., 1 février 2024 09:00")
  /\ format_date mock_lib (HObj "jeu., 1 février 2024 09:00") = Raise not_subscriptable
  /\ (fetch_emails (mock_provider (Ret tt) mailbox_8bit_date []) mock_lib
        "user@example.com" "abcdefghijklmnop" 100 []).1
     = Ret (FetchFailed "Error fetching emails: 'Header' object is not subscriptable").
Proof. by vm_compute. Qed.

(** With a Date header that does not parse but is read as text, the three
    records are returned and the date of the second is the first 20
    characters of the header. *)
Example date_fallback_text :
  exists emails,
    (fetch_emails (mock_provider (Ret tt) sample_mailbox []) mock_lib
       "user@example.com" "abcdefghijklmnop" 100 []).1 = Ret (FetchOk emails)
    /\ e_date <$> emails
       = ["Jan 01, 2024 09:00 AM"; "Yesterday, around no"; "Jan 01, 2024 09:00 AM"].
Proof. eexists. split; by vm_compute. Qed.

(** ** Transport B: the fields of a message *)

Lemma header_value_first_match (headers : list ApiHeader) (name dflt : string) :
  first_match headers name dflt (header_value headers name dflt).
Proof.
  unfold header_value.
  induction headers as [|h headers IH]; simpl.
  { right. split; [|done]. intros h' Hin. by apply elem_of_nil in Hin. }
  destruct (String.eqb_spec (Py.lower (h_name h)) name) as [Heq|Hne].
  { left. exists [], h, headers. repeat split; try done.
    intros h' Hin. by apply elem_of_nil in Hin. }
  destruct IH as [(before & h0 & after & -> & Hname & Hbefore & Hvalue)
                 |[Hnone Hvalue]].
  - left. exists (h :: before), h0, after. repeat split; try done.
    intros h' [->|Hin]%elem_of_cons; [done|by apply Hbefore].
  - right. split; [|done].
    intros h' [->|Hin]%elem_of_cons; [done|by apply Hnone].
Qed.

Lemma date_cut (date_str : string) :
  cut_at 25 date_str
    (if (25 <? Py.len date_str)%Z then Py.str_slice date_str None (Some 25%Z)
     else date_str).
Proof.
  unfold Py.len. destruct (Z.ltb_spec 25 (Z.of_nat (String.length date_str))).
  - apply (str_slice_cut date_str 25).
  - left. split; [lia|done].
Qed.

Lemma fetch_loop_oauth_served (P : Provider) (message_of : string -> ApiMessage)
    (messages : list string) :
  Forall (fun msg_id => api_get P msg_id = Ret (message_of msg_id)) messages ->
  forall acc log,
    fetch_loop_oauth P messages acc log
    = (Ret (acc ++ ((fun msg_id => email_of_api msg_id (message_of msg_id)) <$> messages)),
       log ++ (ApiGet <$> messages)).
Proof.
  induction 1 as [|msg_id messages Hget _ IH]; intros acc log; simpl.
  - by rewrite !app_nil_r.
  - unfold bind, perform. rewrite Hget, IH, <- !app_assoc. done.
Qed.

(** C9.  Every message [fetch_emails_oauth] returns has: as subject, sender
    and date header the value of the first header whose name is "subject",
    "from" and "date" whatever the case of its letters, and "No Subject",
    "Unknown" and "Unknown" when there is none; as body the snippet of the
    provider, cut to 500 characters followed by "..." when it is longer;
    as date the date header cut to its first 25 characters, the text being
    taken as it is.  When the calls to the API succeed the operation
    returns one such message per listed reference, in the order of the
    list. *)
Theorem oauth_message_fields (P : Provider) :
  (forall msg_id message,
     let e := email_of_api msg_id message in
     let headers := message_headers message in
     let snippet := default "" (api_snippet message) in
     e_id e = msg_id
     /\ first_match headers "subject" "No Subject" (e_subject e)
     /\ first_match headers "from" "Unknown" (e_from e)
     /\ (exists date_str,
           first_match headers "date" "Unknown" date_str
           /\ cut_at 25 date_str (e_date e))
     /\ (((Py.len snippet <= 500)%Z /\ e_body e = snippet)
         \/ ((500 < Py.len snippet)%Z
             /\ exists head rest,
                  snippet = head +:+ rest /\ Py.len head = 500%Z
                  /\ e_body e = head +:+ "...")))
  /\ (forall credentials count log messages message_of,
        api_build P credentials = Ret tt ->
        api_list P count = Ret (Some messages) ->
        Forall (fun msg_id => api_get P msg_id = Ret (message_of msg_id)) messages ->
        (fetch_emails_oauth P credentials count log).1
        = Ret (FetchOk ((fun msg_id => email_of_api msg_id (message_of msg_id))
                          <$> messages))).
Proof.
  split.
  - intros msg_id message e headers snippet. subst e. simpl.
    split; [done|]. split; [apply header_value_first_match|].
    split; [apply header_value_first_match|]. split.
    + eexists. split; [apply header_value_first_match|apply date_cut].
    + fold headers snippet.
      destruct (Z.le_gt_cases (Py.len snippet) 500) as [Hle|Hgt].
      * left. split; [done|by apply truncate_body_short].
      * right. split; [done|].
        destruct (truncate_body_long snippet Hgt) as [-> Hhead].
        eexists _, _. split; [apply (str_slice_prefix_split snippet 500); lia|].
        done.
  - intros credentials count log messages message_of Hbuild Hlist Hget.
    unfold fetch_emails_oauth, get_gmail_service, try_except, bind, perform, ret.
    rewrite Hbuild, Hlist. simpl.
    destruct messages as [|msg_id messages]; [done|].
    by rewrite (fetch_loop_oauth_served P message_of _ Hget).
Qed.

Lemma oauth_message_fields_witness :
  let P := mock_provider (Ret tt) [] sample_api_box in
  let message_of := fun msg_id =>
    default (mkApiMessage None None) (assoc msg_id sample_api_box) in
  (api_build P bare_credentials = Ret tt
   /\ api_list P 15 = Ret (Some ["18c2"; "18c1"])
   /\ Forall (fun msg_id => api_get P msg_id = Ret (message_of msg_id)) ["18c2"; "18c1"])
  /\ exists emails,
       (fetch_emails_oauth P bare_credentials 15 []).1 = Ret (FetchOk emails)
       /\ e_subject <$> emails = ["Lunch?"; "No Subject"]
       /\ e_from <$> emails = ["ann@example.com"; "Unknown"]
       /\ e_date <$> emails = ["Mon, 01 Jan 2024 09:00:00"; "Unknown"]
       /\ Py.len <$> (e_body <$> emails) = [503%Z; 0%Z].
Proof.
  intros P message_of.
  assert (api_build P bare_credentials = Ret tt) as Hbuild by reflexivity.
  assert (api_list P 15 = Ret (Some ["18c2"; "18c1"])) as Hlist by reflexivity.
  assert (Forall (fun msg_id => api_get P msg_id = Ret (message_of msg_id))
                 ["18c2"; "18c1"]) as Hget
    by (repeat (apply Forall_cons; split); done).
  split; [done|].
  destruct (oauth_message_fields P) as [_ Hfetch].
  eexists. split; [apply (Hfetch bare_credentials 15%Z [] _ message_of Hbuild Hlist Hget)|].
  by vm_compute.
Defined.

(** * Further properties *)

(** ** The transports return their failures as data *)

(** What a computation added to the log. *)
Lemma bind_log {A B} (m : M A) (k : A -> M B) (Q : event -> Prop) (log : list event) :
  (exists added, (m log).2 = log ++ added /\ Forall Q added) ->
  (forall a log', exists added, (k a log').2 = log' ++ added /\ Forall Q added) ->
  exists added, (bind m k log).2 = log ++ added /\ Forall Q added.
Proof.
  intros (added & Hm & HQ) Hk. unfold bind.
  destruct (m log) as [[a|e] log'] eqn:Hrun; simpl in *; subst log'.
  - destruct (Hk a (log ++ added)) as (added' & -> & HQ').
    exists (added ++ added'). rewrite app_assoc. split; [done|].
    by apply Forall_app.
  - by exists added.
Qed.

Lemma perform_log {A} (ev : event) (r : outcome A) (Q : event -> Prop) (log : list event) :
  Q ev -> exists added, (perform ev r log).2 = log ++ added /\ Forall Q added.
Proof. intros Hev. exists [ev]. split; [done|]. by apply Forall_singleton. Qed.

Lemma ret_log {A} (a : A) (Q : event -> Prop) (log : list event) :
  exists added, (ret a log).2 = log ++ added /\ Forall Q added.
Proof. exists []. by rewrite app_nil_r. Qed.

Lemma try_except_log {A} (m : M A) (h : exn -> M A) (Q : event -> Prop) (log : list event) :
  (exists added, (m log).2 = log ++ added /\ Forall Q added) ->
  (forall e log', exists added, (h e log').2 = log' ++ added /\ Forall Q added) ->
  exists added, (try_except m h log).2 = log ++ added /\ Forall Q added.
Proof.
  intros (added & Hm & HQ) Hh. unfold try_except.
  destruct (m log) as [[a|e] log'] eqn:Hrun; simpl in *; subst log'.
  - by exists added.
  - destruct (Hh e (log ++ added)) as (added' & -> & HQ').
    exists (added ++ added'). rewrite app_assoc. split; [done|].
    by apply Forall_app.
Qed.

(** A handler that always returns makes the whole [try] return. *)
Lemma try_except_returns {A} (m : M A) (h : exn -> M A) (log : list event) :
  (forall e log', exists a, (h e log').1 = Ret a) ->
  exists a, (try_except m h log).1 = Ret a.
Proof.
  intros Hh. unfold try_except.
  destruct (m log) as [[a|e] log']; simpl; [by exists a|apply Hh].
Qed.

(** X1.  None of the five transport operations raises: whatever the
    provider answers or raises at any call, [authenticate], [fetch_emails],
    [send_email], [fetch_emails_oauth] and [send_email_oauth] return their
    pair to the caller. *)
Theorem transports_never_raise (P : Provider) (U : Unicode) (L : EmailLib)
    (log : list event) :
  (forall email_address app_password,
     exists r, (authenticate P U email_address app_password log).1 = Ret r)
  /\ (forall email_address app_password count,
        exists r, (fetch_emails P L email_address app_password count log).1 = Ret r)
  /\ (forall email_address app_password to subject body,
        exists r, (send_email P email_address app_password to subject body log).1 = Ret r)
  /\ (forall credentials count,
        exists r, (fetch_emails_oauth P credentials count log).1 = Ret r)
  /\ (forall credentials to subject body from_email,
        exists r, (send_email_oauth P L credentials to subject body from_email log).1 = Ret r).
Proof.
  repeat split; intros; apply try_except_returns; intros e log';
    destruct (exn_kind e); simpl; try destruct (is_bad_credentials _ _);
    eexists; reflexivity.
Qed.

(** ** Transport A: what the operations call, and when *)



(** X2.  [authenticate] makes at most three calls, in the order connect,
    login, logout, and stops at the first that raises: it never selects a
    mailbox, searches or fetches; the login is attempted exactly when the
    connection succeeded, and the logout is performed exactly when the
    login succeeded, so a rejected login leaves the connection without
    logout. *)
Theorem authenticate_calls (P : Provider) (U : Unicode)
    (email_address app_password : string) (log : list event) :
  exists added,
    (authenticate P U email_address app_password log).2 = log ++ added
    /\ (exists k, added = take k [ImapConnect IMAP_SERVER;
                                  ImapLogin email_address app_password;
                                  ImapLogout])
    /\ (ImapLogin email_address app_password ∈ added
        <-> imap_connect P IMAP_SERVER = Ret tt)
    /\ (ImapLogout ∈ added
        <-> imap_connect P IMAP_SERVER = Ret tt
            /\ imap_login P email_address app_password = Ret tt).
Proof.
  unfold authenticate, try_except, bind, perform, ret. simpl.
  destruct (imap_connect P IMAP_SERVER) as [[]|e1] eqn:Hc; simpl.
  2: { exists [ImapConnect IMAP_SERVER].
       split; [by handler_cases e1|].
       split; [by exists 1%nat|]. split; mem_iff. }
  destruct (imap_login P _ _) as [[]|e2] eqn:Hl; simpl.
  2: { exists [ImapConnect IMAP_SERVER; ImapLogin email_address app_password].
       split; [handler_cases e2; by rewrite <- app_assoc|].
       split; [by exists 2%nat|]. split; mem_iff. }
  exists [ImapConnect IMAP_SERVER; ImapLogin email_address app_password; ImapLogout].
  split.
  { destruct (imap_logout P) as [[]|e3]; simpl; [|handler_cases e3];
      by rewrite <- !app_assoc. }
  split; [by exists 3%nat|]. split; mem_iff.
Qed.

Lemma authenticate_calls_witness :
  exists added,
    (authenticate (mock_provider login_rejected [] []) ascii_upper
       "user@example.com" "wrongpass" []).2
    = [] ++ added
    /\ ~ ImapLogout ∈ added.
Proof.
  destruct (authenticate_calls (mock_provider login_rejected [] []) ascii_upper
              "user@example.com" "wrongpass" []) as (added & Hlog & _ & _ & Hlogout).
  exists added. split; [done|]. intros Hin. apply Hlogout in Hin as [_ Hlogin].
  discriminate Hlogin.
Defined.

Lemma send_email_result (P : Provider) (email_address app_password to subject body : string)
    (log : list event) :
  (send_email P email_address app_password to subject body log).1 =
  match smtp_session P email_address app_password to subject body with
  | Ret _ => Ret (true, "Email sent successfully!")
  | Raise e =>
      match exn_kind e with
      | SMTPAuthenticationError => Ret (false, "Authentication failed: Invalid credentials")
      | SMTPRecipientsRefused => Ret (false, "Failed: Invalid recipient email address")
      | _ => Ret (false, "Failed to send email: " +:+ exn_str e)
      end
  end.
Proof.
  unfold send_email, smtp_session, try_except, bind, perform, ret. simpl.
  destruct (smtp_connect P _ _) as [[]|e]; simpl; [|by destruct (exn_kind e)].
  destruct (smtp_starttls P) as [[]|e]; simpl; [|by destruct (exn_kind e)].
  destruct (smtp_login P _ _) as [[]|e]; simpl; [|by destruct (exn_kind e)].
  destruct (smtp_send_message P _ _ _ _) as [[]|e]; simpl; [|by destruct (exn_kind e)].
  destruct (smtp_quit P) as [[]|e]; simpl; [done|by destruct (exn_kind e)].
Qed.

(** X3.  [send_email] reports success exactly when none of its five SMTP
    calls raises.  Otherwise the message depends on the first exception
    only: a refused login and refused recipients have their own fixed
    messages, which do not repeat the text of the server, and any other
    exception gives "Failed to send email: " followed by its text. *)
Theorem send_email_outcomes (P : Provider)
    (email_address app_password to subject body : string) (log : list event) :
  let result := (send_email P email_address app_password to subject body log).1 in
  let session := smtp_session P email_address app_password to subject body in
  (result = Ret (true, "Email sent successfully!") <-> session = Ret tt)
  /\ (forall e, session = Raise e ->
        result = Ret (false,
          match exn_kind e with
          | SMTPAuthenticationError => "Authentication failed: Invalid credentials"
          | SMTPRecipientsRefused => "Failed: Invalid recipient email address"
          | _ => "Failed to send email: " +:+ exn_str e
          end)).
Proof.
  intros result session. subst result. rewrite send_email_result. fold session.
  split.
  - destruct session as [[]|e]; [done|]. by destruct (exn_kind e).
  - intros e ->. by destruct (exn_kind e).
Qed.

Lemma send_email_outcomes_witness :
  let P := with_search sample_provider (Ret ("OK", [])) in
  smtp_session P "user@example.com" "abcdefghijklmnop" "ann@example.com" "Hi" "Hello" = Ret tt
  /\ (send_email P "user@example.com" "abcdefghijklmnop" "ann@example.com" "Hi" "Hello" []).1
     = Ret (true, "Email sent successfully!").
Proof.
  intros P. split; [reflexivity|].
  apply (send_email_outcomes P "user@example.com" "abcdefghijklmnop"
           "ann@example.com" "Hi" "Hello" []). reflexivity.
Defined.

(** X4.  [send_email] makes its calls in the order connect, STARTTLS,
    login, send, quit and stops at the first that raises.  The password is
    sent (login) only after STARTTLS succeeded, the message only after the
    login succeeded, and [quit] only after the message was accepted. *)
Theorem send_email_calls (P : Provider)
    (email_address app_password to subject body : string) (log : list event) :
  exists added,
    (send_email P email_address app_password to subject body log).2 = log ++ added
    /\ (exists k, added = take k [SmtpConnect SMTP_SERVER SMTP_PORT; SmtpStarttls;
                                  SmtpLogin email_address app_password;
                                  SmtpSendMessage email_address to subject body;
                                  SmtpQuit])
    /\ (SmtpLogin email_address app_password ∈ added
        <-> smtp_connect P SMTP_SERVER SMTP_PORT = Ret tt /\ smtp_starttls P = Ret tt)
    /\ (SmtpSendMessage email_address to subject body ∈ added
        <-> smtp_connect P SMTP_SERVER SMTP_PORT = Ret tt /\ smtp_starttls P = Ret tt
            /\ smtp_login P email_address app_password = Ret tt)
    /\ (SmtpQuit ∈ added
        <-> smtp_connect P SMTP_SERVER SMTP_PORT = Ret tt /\ smtp_starttls P = Ret tt
            /\ smtp_login P email_address app_password = Ret tt
            /\ smtp_send_message P email_address to subject body = Ret tt).
Proof.
  unfold send_email, try_except, bind, perform, ret. simpl.
  destruct (smtp_connect P _ _) as [[]|e1]; simpl.
  2: { exists [SmtpConnect SMTP_SERVER SMTP_PORT].
       split; [by destruct (exn_kind e1)|].
       split; [by exists 1%nat|]. split; [mem_iff|split; mem_iff]. }
  destruct (smtp_starttls P) as [[]|e2]; simpl.
  2: { exists [SmtpConnect SMTP_SERVER SMTP_PORT; SmtpStarttls].
       split; [destruct (exn_kind e2); simpl; by rewrite <- !app_assoc|].
       split; [by exists 2%nat|]. split; [mem_iff|split; mem_iff]. }
  destruct (smtp_login P _ _) as [[]|e3]; simpl.
  2: { exists [SmtpConnect SMTP_SERVER SMTP_PORT; SmtpStarttls;
               SmtpLogin email_address app_password].
       split; [destruct (exn_kind e3); simpl; by rewrite <- !app_assoc|].
       split; [by exists 3%nat|]. split; [mem_iff|split; mem_iff]. }
  destruct (smtp_send_message P _ _ _ _) as [[]|e4]; simpl.
  2: { exists [SmtpConnect SMTP_SERVER SMTP_PORT; SmtpStarttls;
               SmtpLogin email_address app_password;
               SmtpSendMessage email_address to subject body].
       split; [destruct (exn_kind e4); simpl; by rewrite <- !app_assoc|].
       split; [by exists 4%nat|]. split; [mem_iff|split; mem_iff]. }
  exists [SmtpConnect SMTP_SERVER SMTP_PORT; SmtpStarttls;
          SmtpLogin email_address app_password;
          SmtpSendMessage email_address to subject body; SmtpQuit].
  split.
  { destruct (smtp_quit P) as [[]|e5]; simpl; [|destruct (exn_kind e5); simpl];
      by rewrite <- !app_assoc. }
  split; [by exists 5%nat|]. split; [mem_iff|split; mem_iff].
Qed.

Lemma send_email_calls_witness :
  exists added,
    (send_email sample_provider "user@example.com" "abcdefghijklmnop"
       "ann@example.com" "Hi" "Hello" []).2 = [] ++ added
    /\ SmtpLogin "user@example.com" "abcdefghijklmnop" ∈ added.
Proof.
  destruct (send_email_calls sample_provider "user@example.com" "abcdefghijklmnop"
              "ann@example.com" "Hi" "Hello" []) as (added & Hlog & _ & Hlogin & _).
  exists added. split; [done|]. apply Hlogin. split; reflexivity.
Defined.

(** ** Transport A: failures of the search and of the fetches *)

(** X5.  When the search of the inbox answers with a status other than OK,
    [fetch_emails] fails with "Failed to fetch emails", whatever the count:
    it fetches nothing, and it returns without logging out. *)
Theorem fetch_emails_search_refused (P : Provider) (L : EmailLib)
    (email_address app_password status : string) (email_ids : list string)
    (count : Z) (log : list event) :
  mailbox_opened P email_address app_password status email_ids ->
  status <> "OK" ->
  fetch_emails P L email_address app_password count log
  = (Ret (FetchFailed "Failed to fetch emails"),
     log ++ [ImapConnect IMAP_SERVER; ImapLogin email_address app_password;
             ImapSelect "INBOX"; ImapSearch "ALL"]).
Proof.
  intros (Hconnect & Hlogin & Hselect & Hsearch) Hstatus.
  unfold fetch_emails, try_except, bind, perform, ret.
  rewrite Hconnect, Hlogin, Hselect, Hsearch. simpl.
  apply String.eqb_neq in Hstatus. rewrite Hstatus. simpl.
  by rewrite <- !app_assoc.
Qed.

Lemma fetch_emails_search_refused_witness :
  let P := with_search sample_provider (Ret ("NO", [])) in
  (mailbox_opened P "user@example.com" "abcdefghijklmnop" "NO" [] /\ "NO" <> "OK")
  /\ (fetch_emails P mock_lib "user@example.com" "abcdefghijklmnop" 100 []).1
     = Ret (FetchFailed "Failed to fetch emails").
Proof.
  intros P.
  assert (mailbox_opened P "user@example.com" "abcdefghijklmnop" "NO" []) as Hopen
    by (by repeat split).
  assert ("NO" <> "OK") as Hstatus by done.
  split; [done|].
  by rewrite (fetch_emails_search_refused P mock_lib _ _ _ _ 100 [] Hopen Hstatus).
Defined.

Lemma emails_of_response_builds (L : EmailLib) (email_id : string)
    (msg_data : list response_part) :
  response_builds L email_id msg_data ->
  exists emails, emails_of_response L email_id msg_data = Ret emails.
Proof.
  induction 1 as [|[envelope raw|b] msg_data Hr _ [emails IH]]; simpl.
  - by eexists.
  - destruct (Hr eq_refl) as [email Hemail]. simpl in Hemail.
    rewrite Hemail, IH. simpl. by eexists.
  - by exists emails.
Qed.

Lemma emails_of_response_raises (L : EmailLib) (email_id envelope raw : string)
    (built rest : list response_part) (e : exn) :
  response_builds L email_id built ->
  email_of_raw L email_id raw = Raise e ->
  emails_of_response L email_id (built ++ RespTuple envelope raw :: rest) = Raise e.
Proof.
  intros Hbuilt Hraise.
  induction Hbuilt as [|[envelope' raw'|b] built Hr _ IH]; simpl.
  - by rewrite Hraise.
  - destruct (Hr eq_refl) as [email Hemail]. simpl in Hemail.
    by rewrite Hemail, IH.
  - done.
Qed.

(** The loop stops at the first identifier whose step raises. *)
Lemma fetch_loop_raises (P : Provider) (L : EmailLib) (before after : list string)
    (email_id : string) (e : exn) :
  Forall (fun i => exists status msg_data,
              imap_fetch P i = Ret (status, msg_data)
              /\ (status = "OK" -> response_builds L i msg_data)) before ->
  (forall acc log,
      fetch_loop P L (email_id :: after) acc log = (Raise e, log ++ [ImapFetch email_id])) ->
  forall acc log,
    fetch_loop P L (before ++ email_id :: after) acc log
    = (Raise e, log ++ (ImapFetch <$> before) ++ [ImapFetch email_id]).
Proof.
  intros Hbefore Hraise.
  induction Hbefore as [|i before (status & msg_data & Hfetch & Hbuilds) _ IH];
    intros acc log.
  - apply Hraise.
  - change (fetch_loop P L ((i :: before) ++ email_id :: after) acc log)
      with (bind (perform (ImapFetch i) (imap_fetch P i))
              (fun '(status, msg_data) =>
                 if String.eqb status "OK"
                 then bind (lift (emails_of_response L i msg_data))
                        (fun new_emails =>
                           fetch_loop P L (before ++ email_id :: after) (acc ++ new_emails))
                 else fetch_loop P L (before ++ email_id :: after) acc) log).
    unfold bind, perform, lift. rewrite Hfetch.
    destruct (String.eqb_spec status "OK") as [Hok|Hno].
    + destruct (emails_of_response_builds L i msg_data (Hbuilds Hok)) as [emails ->].
      rewrite IH, fmap_cons, <- !app_assoc. done.
    + rewrite IH, fmap_cons, <- !app_assoc. done.
Qed.

(** X6.  An exception raised while one message is fetched, or while the
    record of one fetched message is built, fails the whole operation: the
    records built before it are dropped, the remaining messages are not
    fetched, there is no logout, and the result is the failure
    "IMAP error: ..." for an IMAP error and "Error fetching emails: ..."
    for any other exception.  The messages before it are those whose
    fetch returned and whose records, for the ones fetched with status OK,
    were built. *)
Theorem fetch_emails_aborts_on_exception (P : Provider) (L : EmailLib)
    (email_address app_password : string) (count : Z) (log : list event)
    (email_ids before after : list string) (email_id : string) (e : exn) :
  mailbox_opened P email_address app_password "OK" email_ids ->
  select_latest email_ids count = before ++ email_id :: after ->
  Forall (fun i => exists status msg_data,
              imap_fetch P i = Ret (status, msg_data)
              /\ (status = "OK" -> response_builds L i msg_data)) before ->
  (imap_fetch P email_id = Raise e
   \/ exists built envelope raw rest,
        imap_fetch P email_id = Ret ("OK", built ++ RespTuple envelope raw :: rest)
        /\ response_builds L email_id built
        /\ email_of_raw L email_id raw = Raise e) ->
  fetch_emails P L email_address app_password count log
  = (Ret (FetchFailed (fetch_error_message e)),
     log ++ [ImapConnect IMAP_SERVER; ImapLogin email_address app_password;
             ImapSelect "INBOX"; ImapSearch "ALL"]
         ++ (ImapFetch <$> before) ++ [ImapFetch email_id]).
Proof.
  intros (Hconnect & Hlogin & Hselect & Hsearch) Hselected Hbefore Hraise.
  assert (forall acc log,
             fetch_loop P L (email_id :: after) acc log
             = (Raise e, log ++ [ImapFetch email_id])) as Hstep.
  { intros acc log0. simpl. unfold bind, perform, lift.
    destruct Hraise as [->|(built & envelope & raw & rest & -> & Hbuilt & Hrecord)];
      [done|]. simpl.
    by rewrite (emails_of_response_raises L email_id envelope raw built rest e). }
  unfold fetch_emails, try_except, bind, perform, ret.
  rewrite Hconnect, Hlogin, Hselect, Hsearch. simpl. rewrite Hselected.
  rewrite (fetch_loop_raises P L before after email_id e Hbefore Hstep).
  unfold fetch_error_message. destruct (exn_kind e); simpl; by rewrite <- !app_assoc.
Qed.

Lemma fetch_emails_aborts_on_exception_witness :
  let e := mkExn IMAP4_error "FETCH command error: BAD" in
  let P := with_fetch sample_provider "2" (Raise e) in
  let P' := mock_provider (Ret tt) mailbox_8bit_date [] in
  let before_ok := fun (P : Provider) =>
    Forall (fun i => exists status msg_data,
                imap_fetch P i = Ret (status, msg_data)
                /\ (status = "OK" -> response_builds mock_lib i msg_data)) ["3"] in
  ((mailbox_opened P "user@example.com" "abcdefghijklmnop" "OK" ["1"; "2"; "3"]
    /\ select_latest ["1"; "2"; "3"] 100 = ["3"] ++ "2" :: ["1"]
    /\ before_ok P
    /\ imap_fetch P "2" = Raise e)
   /\ (fetch_emails P mock_lib "user@example.com" "abcdefghijklmnop" 100 []).1
      = Ret (FetchFailed "IMAP error: FETCH command error: BAD"))
  /\ ((mailbox_opened P' "user@example.com" "abcdefghijklmnop" "OK" ["1"; "2"; "3"]
       /\ before_ok P'
       /\ imap_fetch P' "2"
          = Ret ("OK", [] ++ RespTuple "2 (RFC822" "jeu., 1 février 2024 09:00"
                          :: [RespBytes ")"])
       /\ response_builds mock_lib "2" []
       /\ email_of_raw mock_lib "2" "jeu., 1 février 2024 09:00" = Raise not_subscriptable)
      /\ (fetch_emails P' mock_lib "user@example.com" "abcdefghijklmnop" 100 []).1
         = Ret (FetchFailed
                  "Error fetching emails: 'Header' object is not subscriptable")).
Proof.
  intros e P P' before_ok.
  assert (select_latest ["1"; "2"; "3"] 100 = ["3"] ++ "2" :: ["1"]) as Hsel
    by reflexivity.
  assert (forall Q : Provider,
             imap_fetch Q "3"
             = Ret ("OK", [RespTuple "3 (RFC822" "Mon, 01 Jan 2024 11:30:00 +0000";
                           RespBytes ")"]) ->
             before_ok Q) as Hbefore_ok.
  { intros Q HQ. apply Forall_singleton. do 2 eexists. split; [exact HQ|]. intros _.
    apply Forall_cons. split; [intros _; by eexists|].
    apply Forall_cons. split; [done|]. apply Forall_nil_2. }
  split.
  - assert (mailbox_opened P "user@example.com" "abcdefghijklmnop" "OK" ["1"; "2"; "3"])
      as Hopen by (by repeat split).
    assert (before_ok P) as Hbefore by (by apply Hbefore_ok).
    assert (imap_fetch P "2" = Raise e) as Hraise by reflexivity.
    split; [done|].
    by rewrite (fetch_emails_aborts_on_exception P mock_lib _ _ 100 [] _ _ _ _ e
                  Hopen Hsel Hbefore (or_introl Hraise)).
  - assert (mailbox_opened P' "user@example.com" "abcdefghijklmnop" "OK" ["1"; "2"; "3"])
      as Hopen by (by repeat split).
    assert (before_ok P') as Hbefore by (by apply Hbefore_ok).
    assert (imap_fetch P' "2"
            = Ret ("OK", [] ++ RespTuple "2 (RFC822" "jeu., 1 février 2024 09:00"
                            :: [RespBytes ")"])) as Hfetch by reflexivity.
    assert (response_builds mock_lib "2" []) as Hbuilt by apply Forall_nil_2.
    assert (email_of_raw mock_lib "2" "jeu., 1 février 2024 09:00"
            = Raise not_subscriptable) as Hrecord by reflexivity.
    split; [done|].
    by rewrite (fetch_emails_aborts_on_exception P' mock_lib _ _ 100 [] _ _ _ _
                  not_subscriptable Hopen Hsel Hbefore
                  (or_intror (ex_intro _ [] (ex_intro _ _ (ex_intro _ _ (ex_intro _ _
                     (conj Hfetch (conj Hbuilt Hrecord)))))))).
Defined.

(** A Subject header that [decode_header] refuses fails the whole fetch,
    before the older message is asked for. *)
Example fetch_emails_malformed_subject :
  fetch_emails (mock_provider (Ret tt) mailbox_bad_subject []) mock_lib
    "user@example.com" "abcdefghijklmnop" 100 []
  = (Ret (FetchFailed "Error fetching emails: Base64 decoding error"),
     [ImapConnect IMAP_SERVER; ImapLogin "user@example.com" "abcdefghijklmnop";
      ImapSelect "INBOX"; ImapSearch "ALL"; ImapFetch "2"]).
Proof. by vm_compute. Qed.

(** X7.  A message whose fetch answers with a status other than OK is left
    out and the others are kept: when every message of the mailbox is
    fetched either with status OK and one raw message whose record is
    built, or with another status, the batch holds the records of the
    former, in the order of the selection. *)
Theorem fetch_emails_skips_refused (P : Provider) (L : EmailLib)
    (email_address app_password : string) (count : Z) (log : list event)
    (email_ids : list string) (ok : string -> bool)
    (raw_of : string -> string) (record_of : string -> Email) :
  mailbox_opened P email_address app_password "OK" email_ids ->
  imap_logout P = Ret tt ->
  Forall (fun i =>
            if ok i
            then (exists msg_data envelope,
                    imap_fetch P i = Ret ("OK", msg_data)
                    /\ List.filter is_tuple msg_data = [RespTuple envelope (raw_of i)])
                 /\ email_of_raw L i (raw_of i) = Ret (record_of i)
            else exists status msg_data,
                imap_fetch P i = Ret (status, msg_data) /\ status <> "OK")
         email_ids ->
  exists emails,
    (fetch_emails P L email_address app_password count log).1 = Ret (FetchOk emails)
    /\ emails = record_of <$> List.filter ok (select_latest email_ids count)
    /\ e_id <$> emails = List.filter ok (select_latest email_ids count).
Proof.
  intros Hopen Hlogout Hfetch. eexists. split.
  { by rewrite (fetch_emails_filter P L _ _ count log email_ids ok raw_of record_of
                  Hopen Hlogout Hfetch). }
  split; [done|].
  apply select_latest_Forall with (count := count) in Hfetch.
  induction Hfetch as [|i l Hi _ IH]; [done|]. simpl.
  destruct (ok i); [|done].
  rewrite !fmap_cons, IH. f_equal.
  by apply (email_of_raw_fields L i (raw_of i)), Hi.
Qed.

Lemma fetch_emails_skips_refused_witness :
  let P := with_fetch sample_provider "2" (Ret ("NO", [])) in
  let ok := fun i => negb (String.eqb i "2") in
  let raw_of := fun i => default "" (assoc i sample_mailbox) in
  exists emails,
    (fetch_emails P mock_lib "user@example.com" "abcdefghijklmnop" 100 []).1
    = Ret (FetchOk emails)
    /\ e_id <$> emails = ["3"; "1"].
Proof.
  intros P ok raw_of.
  assert (mailbox_opened P "user@example.com" "abcdefghijklmnop" "OK" ["1"; "2"; "3"])
    as Hopen by (by repeat split).
  assert (imap_logout P = Ret tt) as Hlogout by reflexivity.
  assert (Forall (fun i =>
            if ok i
            then (exists msg_data envelope,
                    imap_fetch P i = Ret ("OK", msg_data)
                    /\ List.filter is_tuple msg_data = [RespTuple envelope (raw_of i)])
                 /\ email_of_raw mock_lib i (raw_of i) = Ret (mock_record sample_mailbox i)
            else exists status msg_data,
                imap_fetch P i = Ret (status, msg_data) /\ status <> "OK")
          ["1"; "2"; "3"]) as Hfetch.
  { apply Forall_cons. split.
    { split; [do 2 eexists; split; reflexivity|reflexivity]. }
    apply Forall_cons. split.
    { do 2 eexists. split; [reflexivity|done]. }
    apply Forall_cons. split; [|apply Forall_nil_2].
    split; [do 2 eexists; split; reflexivity|reflexivity]. }
  destruct (fetch_emails_skips_refused P mock_lib _ _ 100 [] _ ok raw_of _
              Hopen Hlogout Hfetch) as (emails & Hrun & _ & Hids).
  exists emails. split; [exact Hrun|exact Hids].
Defined.

(** ** Transport A: the body and the records of a batch *)

Lemma or_else_charset (part : Part) :
  Py.or_else (get_content_charset part) "utf-8" = decoding_charset part.
Proof. unfold decoding_charset. by destruct (get_content_charset part) as [[|c charset]|]. Qed.

(** One turn of the loop over the parts: a usable part gives the body, any
    other part is passed over. *)
Lemma first_plain_text_step (L : EmailLib) (part : Part) (rest : list Part) :
  (exists text, usable_part L part text /\ first_plain_text L (part :: rest) = text)
  \/ ((forall text, ~ usable_part L part text)
      /\ first_plain_text L (part :: rest) = first_plain_text L rest).
Proof.
  simpl. unfold part_text. rewrite or_else_charset.
  destruct (String.eqb_spec (get_content_type part) "text/plain") as [Htype|Htype];
    simpl; [|right; split; [by intros text [? _]|done]].
  destruct (Py.str_in "attachment" _) eqn:Hatt; simpl.
  { right. split; [|done]. intros text (_ & Hno & _).
    by apply Hno, str_in_occurs. }
  apply str_in_not_occurs in Hatt.
  destruct (get_payload_decode part) as [| |payload] eqn:Hpayload;
    try (right; split; [intros text (_ & _ & ? & ? & _); congruence|done]).
  destruct payload as [|c payload]; simpl.
  { right. split; [|done]. intros text (_ & _ & ? & Heq & ? & _). congruence. }
  destruct (bytes_decode L _ _) as [text|] eqn:Hdecode.
  - left. exists text. split; [|done]. split; [done|]. split; [done|].
    by exists (String c payload).
  - right. split; [|done]. intros text (_ & _ & ? & Heq & _ & ?).
    rewrite Hpayload in Heq. injection Heq as <-. congruence.
Qed.

Lemma first_plain_text_spec (L : EmailLib) (parts : list Part) :
  (exists before part after text,
      parts = before ++ part :: after
      /\ usable_part L part text
      /\ (forall p t, p ∈ before -> ~ usable_part L p t)
      /\ first_plain_text L parts = text)
  \/ ((forall p t, p ∈ parts -> ~ usable_part L p t)
      /\ first_plain_text L parts = "").
Proof.
  induction parts as [|part parts IH].
  { right. split; [|done]. intros p t Hin. by apply elem_of_nil in Hin. }
  destruct (first_plain_text_step L part parts) as [(text & Huse & Htext)|[Hnot ->]].
  { left. exists [], part, parts, text. repeat split; try done; try apply Huse.
    intros p t Hin. by apply elem_of_nil in Hin. }
  destruct IH as [(before & p0 & after & text & -> & Huse & Hbefore & Htext)
                 |[Hnone Htext]].
  - left. exists (part :: before), p0, after, text.
    split; [done|]. split; [done|]. split; [|done].
    intros p t [->|Hin]%elem_of_cons; [apply Hnot|by apply Hbefore].
  - right. split; [|done].
    intros p t [->|Hin]%elem_of_cons; [apply Hnot|by apply Hnone].
Qed.

(** X8.  The body of a multipart message is the (truncated) text of the
    first part, in the order of [msg.walk()], that is of type text/plain,
    does not have "attachment" in its Content-Disposition, and has a
    non-empty payload that decodes, with the charset of the part or with
    utf-8 when the part declares none or an empty one; parts that fail one
    of these tests, attachments and undecodable parts included, are passed
    over.  When no part qualifies the body is empty. *)
Theorem get_email_body_multipart (L : EmailLib) (msg : Message) :
  is_multipart msg = true ->
  (exists before part after text,
      walk msg = before ++ part :: after
      /\ usable_part L part text
      /\ (forall p t, p ∈ before -> ~ usable_part L p t)
      /\ get_email_body L msg = truncate_body text)
  \/ ((forall p t, p ∈ walk msg -> ~ usable_part L p t)
      /\ get_email_body L msg = "").
Proof.
  intros Hmulti. unfold get_email_body. rewrite Hmulti.
  destruct (first_plain_text_spec L (walk msg))
    as [(before & part & after & text & Hwalk & Huse & Hbefore & ->)|[Hnone ->]].
  - left. by exists before, part, after, text.
  - by right.
Qed.

Lemma get_email_body_multipart_witness :
  (is_multipart sample_multipart = true
   /\ get_email_body mock_lib sample_multipart = "Hello")
  /\ (is_multipart sample_empty_charset = true
      /\ bytes_decode mock_lib "Bonjour" "" = None
      /\ get_email_body mock_lib sample_empty_charset = "Bonjour").
Proof.
  split.
  - split; [reflexivity|].
    destruct (get_email_body_multipart mock_lib sample_multipart eq_refl)
      as [(before & part & after & text & _ & _ & _ & _)|[_ _]];
      reflexivity.
  - split; [reflexivity|]. split; [reflexivity|].
    destruct (get_email_body_multipart mock_lib sample_empty_charset eq_refl)
      as [(before & part & after & text & _ & _ & _ & _)|[_ _]];
      reflexivity.
Defined.

Lemma emails_of_response_Forall (L : EmailLib) (Q : Email -> Prop) (email_id : string)
    (msg_data : list response_part) (emails : list Email) :
  (forall raw email, email_of_raw L email_id raw = Ret email -> Q email) ->
  emails_of_response L email_id msg_data = Ret emails ->
  Forall Q emails.
Proof.
  intros HQ. revert emails.
  induction msg_data as [|[envelope raw|b] msg_data IH]; intros emails; simpl.
  - intros [= <-]. apply Forall_nil_2.
  - destruct (email_of_raw L email_id raw) as [email|] eqn:Hemail; [|done]. simpl.
    destruct (emails_of_response L email_id msg_data) as [rest|]; [|done]. simpl.
    intros [= <-]. apply Forall_cons. split; [by apply (HQ raw)|by apply IH].
  - apply IH.
Qed.

Lemma fetch_loop_Forall (P : Provider) (L : EmailLib) (Q : Email -> Prop)
    (email_ids : list string) :
  Forall (fun i => forall raw email, email_of_raw L i raw = Ret email -> Q email)
         email_ids ->
  forall acc log emails log',
    Forall Q acc ->
    fetch_loop P L email_ids acc log = (Ret emails, log') ->
    Forall Q emails.
Proof.
  induction 1 as [|i email_ids Hi _ IH]; intros acc log emails log' Hacc; simpl.
  - by intros [= <- _].
  - unfold bind, perform, lift.
    destruct (imap_fetch P i) as [[status msg_data]|e]; [|done].
    destruct (String.eqb status "OK"); [|by apply IH].
    destruct (emails_of_response L i msg_data) as [new_emails|e] eqn:Hnew; [|done].
    apply IH. apply Forall_app. split; [done|].
    by apply (emails_of_response_Forall L Q i msg_data).
Qed.

(** X9.  Whatever the server answers, every record of a batch that
    [fetch_emails] returns carries the identifier of a message the search
    listed and a body of at most 503 characters. *)
Theorem fetch_emails_records (P : Provider) (L : EmailLib)
    (email_address app_password : string) (count : Z) (log : list event)
    (emails : list Email) :
  (fetch_emails P L email_address app_password count log).1 = Ret (FetchOk emails) ->
  exists status email_ids,
    imap_search P "ALL" = Ret (status, email_ids)
    /\ Forall (fun e => e_id e ∈ email_ids /\ (Py.len (e_body e) <= 503)%Z) emails.
Proof.
  unfold fetch_emails, try_except, bind, perform, ret.
  destruct (imap_connect P IMAP_SERVER) as [[]|e]; simpl;
    [|by destruct (exn_kind e)].
  destruct (imap_login P _ _) as [[]|e]; simpl; [|by destruct (exn_kind e)].
  destruct (imap_select P _) as [[]|e]; simpl; [|by destruct (exn_kind e)].
  destruct (imap_search P _) as [[status email_ids]|e]; simpl;
    [|by destruct (exn_kind e)].
  destruct (String.eqb status "OK"); simpl; [|done].
  destruct (fetch_loop P L _ [] _) as [[fetched_emails|e] log'] eqn:Hloop; simpl;
    [|by destruct (exn_kind e)].
  intros Hresult. exists status, email_ids. split; [done|].
  assert (emails = fetched_emails) as ->.
  { destruct (imap_logout P) as [[]|e]; simpl in Hresult;
      [congruence|by destruct (exn_kind e)]. }
  clear Hresult.
  assert (Forall (fun i => forall raw email,
                    email_of_raw L i raw = Ret email ->
                    e_id email ∈ email_ids /\ (Py.len (e_body email) <= 503)%Z)
                 (select_latest email_ids count)) as Hall.
  { apply select_latest_Forall, Forall_forall.
    intros i Hin raw email Hemail.
    destruct (email_of_raw_fields L i raw email Hemail) as [-> Hlen]. done. }
  exact (fetch_loop_Forall P L _ _ Hall [] _ _ _ (Forall_nil_2 _) Hloop).
Qed.

Lemma fetch_emails_records_witness :
  exists emails,
    (fetch_emails sample_provider mock_lib "user@example.com" "abcdefghijklmnop" 2 []).1
    = Ret (FetchOk emails)
    /\ exists status email_ids,
         imap_search sample_provider "ALL" = Ret (status, email_ids)
         /\ Forall (fun e => e_id e ∈ email_ids /\ (Py.len (e_body e) <= 503)%Z) emails.
Proof.
  eexists. split; [by vm_compute|].
  apply (fetch_emails_records sample_provider mock_lib
           "user@example.com" "abcdefghijklmnop" 2 []).
  by vm_compute.
Defined.

(** ** Transport B: empty lists, failures and the message sent *)

(** X10.  When the list of the inbox comes back without a ['messages']
    entry, or with an empty one, [fetch_emails_oauth] succeeds with an
    empty batch and asks the API for no message. *)
Theorem fetch_emails_oauth_empty (P : Provider) (credentials : Credentials)
    (count : Z) (log : list event) :
  api_build P credentials = Ret tt ->
  api_list P count = Ret None \/ api_list P count = Ret (Some []) ->
  fetch_emails_oauth P credentials count log
  = (Ret (FetchOk []), log ++ [ApiBuild credentials; ApiList count]).
Proof.
  intros Hbuild Hlist.
  unfold fetch_emails_oauth, get_gmail_service, try_except, bind, perform, ret.
  rewrite Hbuild. simpl.
  destruct Hlist as [-> | ->]; simpl; by rewrite <- !app_assoc.
Qed.

Lemma fetch_emails_oauth_empty_witness :
  let P := mock_provider (Ret tt) [] [] in
  (api_build P bare_credentials = Ret tt
   /\ (api_list P 15 = Ret None \/ api_list P 15 = Ret (Some [])))
  /\ (fetch_emails_oauth P bare_credentials 15 []).1 = Ret (FetchOk []).
Proof.
  intros P.
  assert (api_build P bare_credentials = Ret tt) as Hbuild by reflexivity.
  assert (api_list P 15 = Ret None \/ api_list P 15 = Ret (Some [])) as Hlist
    by (by right).
  split; [done|].
  by rewrite (fetch_emails_oauth_empty P bare_credentials 15 [] Hbuild Hlist).
Defined.

Lemma fetch_loop_oauth_raises (P : Provider) (before after : list string)
    (msg_id : string) (e : exn) :
  Forall (fun i => exists message, api_get P i = Ret message) before ->
  api_get P msg_id = Raise e ->
  forall acc log,
    fetch_loop_oauth P (before ++ msg_id :: after) acc log
    = (Raise e, log ++ (ApiGet <$> before) ++ [ApiGet msg_id]).
Proof.
  intros Hbefore Hraise.
  induction Hbefore as [|i before [message Hget] _ IH];
    intros acc log; simpl; unfold bind, perform.
  - by rewrite Hraise.
  - rewrite Hget, IH, <- !app_assoc. done.
Qed.

(** X11.  [fetch_emails_oauth] is all or nothing: when the API fails to
    give one of the listed messages, the messages obtained before it are
    dropped, the following ones are not asked for, and the result is the
    failure "Gmail API error: ..." for an HTTP error and "Error fetching
    emails: ..." for any other exception. *)
Theorem fetch_emails_oauth_aborts (P : Provider) (credentials : Credentials)
    (count : Z) (log : list event) (before after : list string)
    (msg_id : string) (e : exn) :
  api_build P credentials = Ret tt ->
  api_list P count = Ret (Some (before ++ msg_id :: after)) ->
  Forall (fun i => exists message, api_get P i = Ret message) before ->
  api_get P msg_id = Raise e ->
  fetch_emails_oauth P credentials count log
  = (Ret (FetchFailed (api_error_message e)),
     log ++ [ApiBuild credentials; ApiList count]
         ++ (ApiGet <$> before) ++ [ApiGet msg_id]).
Proof.
  intros Hbuild Hlist Hbefore Hraise.
  unfold fetch_emails_oauth, get_gmail_service, try_except, bind, perform, ret.
  rewrite Hbuild, Hlist. simpl.
  pose proof (fetch_loop_oauth_raises P before after msg_id e Hbefore Hraise) as Hloop.
  destruct (before ++ msg_id :: after) as [|m ms] eqn:Hmessages;
    [by destruct before|].
  rewrite Hloop.
  unfold api_error_message. destruct (exn_kind e); simpl; by rewrite <- !app_assoc.
Qed.

Lemma fetch_emails_oauth_aborts_witness :
  let e := mkExn HttpError "<HttpError 500>" in
  let P := with_api_get sample_provider "18c1" (Raise e) in
  (api_build P bare_credentials = Ret tt
   /\ api_list P 15 = Ret (Some (["18c2"] ++ "18c1" :: []))
   /\ Forall (fun i => exists message, api_get P i = Ret message) ["18c2"]
   /\ api_get P "18c1" = Raise e)
  /\ (fetch_emails_oauth P bare_credentials 15 []).1
     = Ret (FetchFailed "Gmail API error: <HttpError 500>").
Proof.
  intros e P.
  assert (api_build P bare_credentials = Ret tt) as Hbuild by reflexivity.
  assert (api_list P 15 = Ret (Some (["18c2"] ++ "18c1" :: []))) as Hlist
    by reflexivity.
  assert (Forall (fun i => exists message, api_get P i = Ret message) ["18c2"])
    as Hbefore by (apply Forall_singleton; by eexists).
  assert (api_get P "18c1" = Raise e) as Hraise by reflexivity.
  split; [done|].
  by rewrite (fetch_emails_oauth_aborts P bare_credentials 15 [] _ _ _ e
                Hbuild Hlist Hbefore Hraise).
Defined.

(** X12.  [send_email_oauth] builds the service first and then the MIME
    message from the recipient, the sender, the subject and the body.
    When the message serialises, at most one message is sent, the
    URL-safe base64 encoding of its bytes, and only once the service is
    built; success is reported exactly when both the construction of the
    service and the send succeed.  When the serialisation raises (a header
    with a line break), nothing is sent, although the service was asked
    for, and a failure is reported. *)
Theorem send_email_oauth_calls (P : Provider) (L : EmailLib)
    (credentials : Credentials) (to subject body from_email : string)
    (log : list event) :
  let run := send_email_oauth P L credentials to subject body from_email log in
  (forall message_bytes,
      mime_as_bytes L to from_email subject body = Ret message_bytes ->
      let raw := urlsafe_b64encode L message_bytes in
      exists added,
        run.2 = log ++ added
        /\ (exists k, added = take k [ApiBuild credentials; ApiSend raw])
        /\ (ApiSend raw ∈ added <-> api_build P credentials = Ret tt)
        /\ (run.1 = Ret (true, "Email sent successfully!")
            <-> api_build P credentials = Ret tt /\ api_send P raw = Ret tt))
  /\ (forall e,
        mime_as_bytes L to from_email subject body = Raise e ->
        run.2 = log ++ [ApiBuild credentials]
        /\ (exists message, run.1 = Ret (false, message))
        /\ (api_build P credentials = Ret tt ->
            run.1 = Ret (false, send_error_message e))).
Proof.
  intros run. subst run.
  unfold send_email_oauth, get_gmail_service, try_except, bind, perform, ret, lift.
  split.
  - intros message_bytes ->. set (raw := urlsafe_b64encode L message_bytes). simpl.
    destruct (api_build P credentials) as [[]|e1]; simpl.
    2: { exists [ApiBuild credentials].
         split; [by destruct (exn_kind e1)|]. split; [by exists 1%nat|].
         split; [mem_iff|]. split; [by destruct (exn_kind e1)|by intros []]. }
    exists [ApiBuild credentials; ApiSend raw].
    destruct (api_send P raw) as [[]|e2]; simpl.
    + split; [by rewrite <- !app_assoc|]. split; [by exists 2%nat|].
      split; [mem_iff|done].
    + split; [destruct (exn_kind e2); simpl; by rewrite <- !app_assoc|].
      split; [by exists 2%nat|]. split; [mem_iff|].
      split; [by destruct (exn_kind e2)|by intros []].
  - intros e ->. simpl.
    destruct (api_build P credentials) as [[]|e1]; simpl.
    + unfold send_error_message.
      split; [by destruct (exn_kind e)|].
      split; [destruct (exn_kind e); by eexists|]. intros _. by destruct (exn_kind e).
    + split; [by destruct (exn_kind e1)|].
      split; [destruct (exn_kind e1); by eexists|done].
Qed.

Lemma send_email_oauth_calls_witness :
  let broken := "Hi" +:+ String (ascii_of_nat 10) "Bcc: eve@example.com" in
  (mime_as_bytes mock_lib "ann@example.com" "user@example.com" "Hi" "Hello"
   = Ret "To: ann@example.com From: user@example.com Subject: Hi Hello"
   /\ (send_email_oauth sample_provider mock_lib bare_credentials
         "ann@example.com" "Hi" "Hello" "user@example.com" []).1
      = Ret (true, "Email sent successfully!"))
  /\ (mime_as_bytes mock_lib "ann@example.com" "user@example.com" broken "Hello"
      = Raise (mkExn OtherException "header value appears to contain an embedded header")
      /\ api_build sample_provider bare_credentials = Ret tt
      /\ send_email_oauth sample_provider mock_lib bare_credentials
           "ann@example.com" broken "Hello" "user@example.com" []
         = (Ret (false, "Failed to send email: header value appears to contain an embedded header"),
            [ApiBuild bare_credentials])).
Proof.
  intros broken. split.
  - split; [reflexivity|].
    destruct (send_email_oauth_calls sample_provider mock_lib bare_credentials
                "ann@example.com" "Hi" "Hello" "user@example.com" []) as [Hsent _].
    destruct (Hsent _ eq_refl) as (added & _ & _ & _ & Hok).
    apply Hok. split; reflexivity.
  - split; [reflexivity|]. split; [reflexivity|].
    destruct (send_email_oauth_calls sample_provider mock_lib bare_credentials
                "ann@example.com" broken "Hello" "user@example.com" []) as [_ Hfails].
    destruct (Hfails _ eq_refl) as (Hlog & _ & Hres).
    apply injective_projections; [exact (Hres eq_refl)|exact Hlog].
Defined.

(** ** Credentials: what deserialisation requires and what it fills in *)

(** X13.  Deserialising a serialised credential never fails, whatever the
    fields hold; the result has the same token, refresh token, token
    endpoint, client id and client secret, its scopes are a list (the
    characters of a string, the empty list for [None]), and serialising it
    again gives the same dictionary. *)
Theorem credentials_to_dict_stable (c : Credentials) :
  exists c',
    credentials_from_dict (credentials_to_dict c) = Some c'
    /\ token c' = token c /\ refresh_token c' = refresh_token c
    /\ token_uri c' = token_uri c /\ client_id c' = client_id c
    /\ client_secret c' = client_secret c
    /\ (exists l, scopes c' = VList l)
    /\ credentials_to_dict c' = credentials_to_dict c.
Proof.
  destruct (credentials_to_dict_lookup c) as (Ht & Hr & Hu & Hi & Hsec & Hsc).
  eexists. split.
  { unfold credentials_from_dict, dict_get.
    rewrite Ht, Hr, Hu, Hi, Hsec, Hsc. reflexivity. }
  simpl. repeat split; try done.
  - destruct (value_truthy (scopes c)); by eexists.
  - unfold credentials_to_dict. simpl. do 5 f_equal.
    destruct (value_truthy (scopes c)) eqn:Htruthy; simpl; [|done].
    destruct (value_list (scopes c)) eqn:Hlist; [done|]. simpl. done.
Qed.

(** X14.  Only the ['token'] key is required by [credentials_from_dict]:
    without it the lookup raises, with it the result exists.  A missing
    ['token_uri'] is replaced by the Google token endpoint, whereas a
    ['token_uri'] stored as [None] stays [None]; missing scopes give
    [None]. *)
Theorem credentials_from_dict_keys (creds_dict : gmap string value) :
  (is_Some (credentials_from_dict creds_dict) <-> is_Some (creds_dict !! "token"))
  /\ (forall c, credentials_from_dict creds_dict = Some c ->
        creds_dict !! "token" = Some (token c)
        /\ (creds_dict !! "token_uri" = None ->
            token_uri c = VStr "https://oauth2.googleapis.com/token")
        /\ (forall v, creds_dict !! "token_uri" = Some v -> token_uri c = v)
        /\ (creds_dict !! "scopes" = None -> scopes c = VNone)
        /\ (creds_dict !! "refresh_token" = None -> refresh_token c = VNone)).
Proof.
  unfold credentials_from_dict, dict_get.
  destruct (creds_dict !! "token") as [t|] eqn:Ht; simpl.
  - split; [split; intros _; by eexists|].
    intros c [= <-]. simpl. split; [done|].
    split; [by intros ->|]. split; [by intros v ->|].
    split; by intros ->.
  - split; [split; by intros [? ?]|]. by intros c.
Qed.

Lemma credentials_from_dict_keys_witness :
  let d : gmap string value := <["token" := VStr "ya29.token"]> (<["token_uri" := VNone]> ∅) in
  exists c,
    credentials_from_dict d = Some c
    /\ token_uri c = VNone /\ scopes c = VNone.
Proof.
  intros d.
  destruct (credentials_from_dict_keys d) as [Hsome Hfields].
  destruct (proj2 Hsome) as [c Hc]; [by eexists|].
  exists c. split; [done|].
  destruct (Hfields c Hc) as (_ & _ & Huri & Hscopes & _).
  split; [by apply Huri|by apply Hscopes].
Defined.

(** ** The inbox page: sizes of the pages and navigation *)

(** X15.  From a valid session (page at least 1, page size among the
    options) and a non-empty batch, whatever control is used, First, Prev,
    Next, Last, Refresh or a change of page size, the new page number is a
    page of the batch under the new page size: the next rendering shows
    exactly that page, without clamping. *)
Theorem controls_keep_page_in_range (c : control) (st st' : SessionState)
    (batch : list Email) :
  batch <> [] ->
  emails_per_page st ∈ per_page_options ->
  (1 <= email_page st)%Z ->
  press c (paginate st batch).2 (paginate st batch).1 = Some st' ->
  emails_per_page st' ∈ per_page_options
  /\ (1 <= email_page st' <= total_pages (paginate st' batch).2)%Z
  /\ current_page (paginate st' batch).2 = email_page st'.
Proof.
  intros Hne Hps Hpage Hpress.
  destruct (press_keeps_page_valid c st st' batch Hne Hps Hpage Hpress)
    as [Hpage' Hps'].
  destruct (paginate_clamped st batch Hne Hps Hpage) as (_ & Hcur & Hst & Hpp & _).
  destruct (paginate_clamped st' batch Hne Hps' Hpage') as (Hcur' & Hrange' & _).
  pose proof (paginate_total_pages st batch) as Htp.
  pose proof (paginate_total_pages st' batch) as Htp'.
  simpl in *.
  assert (email_page st' <= total_pages (paginate st' batch).2)%Z as Hle.
  { destruct c; simpl in Hpress;
      repeat match type of Hpress with
             | context [Z.eqb ?a ?b] => destruct (Z.eqb_spec a b)
             | context [bool_decide ?Q] => destruct (bool_decide Q)
             end; try done;
      injection Hpress as <-; simpl in *; rewrite ?Hpp in *; lia. }
  split; [done|]. split; [lia|]. rewrite Hcur'. lia.
Qed.

Lemma controls_keep_page_in_range_witness :
  exists st',
    press Next (paginate (sample_session 1 10) sample_batch).2
               (paginate (sample_session 1 10) sample_batch).1 = Some st'
    /\ current_page (paginate st' sample_batch).2 = email_page st'.
Proof.
  eexists. split; [reflexivity|].
  eapply (controls_keep_page_in_range Next (sample_session 1 10) _ sample_batch).
  - by vm_compute.
  - by left.
  - by vm_compute.
  - reflexivity.
Defined.

(** X16.  Every page but the last holds exactly [per_page] messages and
    the last one holds the rest, between 1 and [per_page] of them; the
    bounds shown under the page number, [start_idx + 1] to [end_idx], span
    exactly the messages listed. *)
Theorem page_lengths (st : SessionState) (batch : list Email) (p : Z) :
  emails_per_page st ∈ per_page_options ->
  let view := (paginate (set_email_page st p) batch).2 in
  let n := Z.of_nat (length batch) in
  let ps := emails_per_page st in
  (1 <= p <= total_pages view)%Z ->
  Z.of_nat (length (emails view))
  = (if (p <? total_pages view)%Z then ps else n - (total_pages view - 1) * ps)%Z
  /\ (1 <= Z.of_nat (length (emails view)) <= ps)%Z
  /\ (end_idx view - start_idx view)%Z = Z.of_nat (length (emails view)).
Proof.
  intros Hps view n ps Hp. subst view.
  rewrite (paginate_total_pages (set_email_page st p) batch) in Hp |- *.
  simpl in Hp |- *. fold n ps in Hp |- *.
  pose proof (per_page_positive _ Hps) as Hpos.
  pose proof (ceil_div_bounds n ps Hpos) as [Hlo Hhi]. simpl in Hlo, Hhi.
  rewrite (paginate_valid_page st batch Hps p Hp). simpl.
  rewrite length_take, length_drop. fold n ps.
  set (total := ((n + ps - 1) / ps)%Z) in *.
  destruct (Z.ltb_spec p total); subst n; nia.
Qed.

Lemma page_lengths_witness :
  emails_per_page (sample_session 1 10) ∈ per_page_options
  /\ length (page_items (sample_session 1 10) sample_batch 3) = 3%nat.
Proof.
  assert (emails_per_page (sample_session 1 10) ∈ per_page_options) as Hps
    by (by left).
  split; [done|].
  destruct (page_lengths (sample_session 1 10) sample_batch 3 Hps) as (Hlen & _).
  - by vm_compute.
  - apply Nat2Z.inj. unfold page_items. rewrite Hlen. by vm_compute.
Defined.

(** The view depends on the session through the page number and the page
    size only, and showing the page that is being shown changes nothing. *)
Lemma paginate_same_page (st sa : SessionState) (batch : list Email) :
  emails_per_page sa = emails_per_page st ->
  email_page sa = current_page (paginate st batch).2 ->
  (paginate sa batch).2 = (paginate st batch).2.
Proof.
  unfold paginate. intros -> Hpage.
  set (total := ((Z.of_nat (length batch) + emails_per_page st - 1)
                 / emails_per_page st)%Z) in *.
  destruct (Z.ltb_spec total (email_page st)); simpl in *; rewrite Hpage.
  - destruct (Z.ltb_spec total total); [lia|done].
  - destruct (Z.ltb_spec total (email_page st)); [lia|done].
Qed.

(** X17.  Next and then Prev lead back: when Next is enabled on the page
    shown, Prev is enabled on the page it leads to and returns to the page
    shown before. *)
Theorem next_then_prev (st st1 : SessionState) (batch : list Email) :
  batch <> [] ->
  emails_per_page st ∈ per_page_options ->
  (1 <= email_page st)%Z ->
  press Next (paginate st batch).2 (paginate st batch).1 = Some st1 ->
  current_page (paginate st1 batch).2 = (current_page (paginate st batch).2 + 1)%Z
  /\ exists st2,
       press Prev (paginate st1 batch).2 (paginate st1 batch).1 = Some st2
       /\ email_page st2 = current_page (paginate st batch).2
       /\ (paginate st2 batch).2 = (paginate st batch).2.
Proof.
  intros Hne Hps Hpage Hnext.
  destruct (paginate_clamped st batch Hne Hps Hpage) as (_ & Hcur & Hst & Hpp & _).
  destruct (press_keeps_page_valid Next st st1 batch Hne Hps Hpage Hnext)
    as [Hpage1 Hps1].
  destruct (paginate_clamped st1 batch Hne Hps1 Hpage1) as (Hcur1 & _).
  simpl in Hnext, Hcur, Hcur1.
  destruct (Z.eqb_spec (current_page (paginate st batch).2)
              (total_pages (paginate st batch).2)) as [|Hlast]; [done|].
  injection Hnext as <-.
  set (st0 := (paginate st batch).1) in *.
  set (view := (paginate st batch).2) in *.
  set (st1 := set_email_page st0 (current_page view + 1)) in *.
  assert (total_pages (paginate st1 batch).2 = total_pages view) as Htotal.
  { subst view. rewrite !paginate_total_pages. subst st1. simpl. by rewrite Hpp. }
  rewrite Htotal in Hcur1. simpl in Hcur1.
  assert (current_page (paginate st1 batch).2 = current_page view + 1)%Z as Hnew
    by lia.
  split; [done|]. simpl. rewrite Hnew.
  destruct (Z.eqb_spec (current_page view + 1) 1); [lia|].
  eexists. split; [reflexivity|]. simpl.
  replace (current_page view + 1 - 1)%Z with (current_page view) by lia.
  split; [done|].
  apply paginate_same_page; [|done]. simpl.
  unfold paginate. destruct (_ <? _)%Z; simpl; by rewrite Hpp.
Qed.

Lemma next_then_prev_witness :
  exists st1 st2,
    press Next (paginate (sample_session 2 10) sample_batch).2
               (paginate (sample_session 2 10) sample_batch).1 = Some st1
    /\ press Prev (paginate st1 sample_batch).2 (paginate st1 sample_batch).1 = Some st2
    /\ email_page st2 = 2%Z.
Proof.
  assert (sample_batch <> []) as Hne by (by vm_compute).
  assert (emails_per_page (sample_session 2 10) ∈ per_page_options) as Hps
    by (by left).
  assert (1 <= email_page (sample_session 2 10))%Z as Hpage by (by vm_compute).
  eexists.
  destruct (next_then_prev (sample_session 2 10) _ sample_batch Hne Hps Hpage eq_refl)
    as (_ & st2 & Hprev & Hback & _).
  exists st2. split; [reflexivity|]. split; [exact Hprev|].
  rewrite Hback. by vm_compute.
Defined.

(** X18.  Choosing another page size stores it and goes back to page 1:
    the next rendering of a non-empty batch shows page 1, from the first
    message on.  Choosing the current size changes nothing, and a size that
    is not among the options cannot be chosen. *)
Theorem per_page_change_resets (st st' : SessionState) (view : PageView)
    (per_page : Z) (batch : list Email) :
  press (SelectPerPage per_page) view st = Some st' ->
  per_page ∈ per_page_options
  /\ (per_page = emails_per_page st -> st' = st)
  /\ (per_page <> emails_per_page st ->
      emails_per_page st' = per_page
      /\ email_page st' = 1%Z
      /\ (batch <> [] ->
          current_page (paginate st' batch).2 = 1%Z
          /\ start_idx (paginate st' batch).2 = 0%Z)).
Proof.
  simpl. destruct (bool_decide (per_page ∈ per_page_options)) eqn:Hin; [|done].
  apply bool_decide_eq_true_1 in Hin.
  destruct (Z.eqb_spec per_page (emails_per_page st)) as [Heq|Hne];
    intros [= <-]; (split; [done|]); (split; [done|]); intros Hdiff; [done|].
  split; [done|]. split; [done|]. intros Hbatch.
  destruct (paginate_clamped (set_email_page (set_emails_per_page st per_page) 1)
              batch Hbatch Hin ltac:(simpl; lia)) as (Hcur & Hrange & _).
  simpl in Hcur, Hrange.
  assert (current_page
            (paginate (set_email_page (set_emails_per_page st per_page) 1) batch).2
          = 1%Z) as Hone by lia.
  split; [done|].
  revert Hone. unfold paginate. simpl.
  destruct (_ <? _)%Z; simpl; intros Hone; try rewrite Hone; done.
Qed.

Lemma per_page_change_resets_witness :
  exists st',
    press (SelectPerPage 25) (paginate (sample_session 3 10) sample_batch).2
          (sample_session 3 10) = Some st'
    /\ emails_per_page st' = 25%Z
    /\ email_page st' = 1%Z.
Proof.
  eexists. split; [reflexivity|].
  destruct (per_page_change_resets (sample_session 3 10) _
              (paginate (sample_session 3 10) sample_batch).2 25 sample_batch eq_refl)
    as (_ & _ & Hreset).
  destruct Hreset as (Hpp & Hpage & _); [by vm_compute|]. done.
Defined.

(** ** The compose page *)

(** X19.  The form is checked field by field before anything is sent: an
    empty recipient, then an empty subject, then an empty body each stop
    the page with their own error, and the page then makes no call to the
    provider. *)
Theorem compose_page_requires_fields (P : Provider) (L : EmailLib)
    (st : SessionState) (to_email subject body : string) (log : list event) :
  to_email = "" \/ subject = "" \/ body = "" ->
  exists message,
    compose_page P L st to_email subject body log = (Ret tt, log ++ [UiError message])
    /\ message =
       (if negb (Py.truthy to_email) then "⚠️ Please enter a recipient email address."
        else if negb (Py.truthy subject) then "⚠️ Please enter a subject."
        else "⚠️ Please enter a message.").
Proof.
  intros Hempty. unfold compose_page.
  destruct to_email as [|c1 to_email]; simpl; [by eexists|].
  destruct subject as [|c2 subject]; simpl; [by eexists|].
  destruct body as [|c3 body]; simpl; [by eexists|].
  by destruct Hempty as [?|[?|?]].
Qed.

Lemma compose_page_requires_fields_witness :
  exists message,
    compose_page sample_provider mock_lib (sample_session 1 25)
      "ann@example.com" "" "Hello" []
    = (Ret tt, [] ++ [UiError message])
    /\ message = "⚠️ Please enter a subject.".
Proof.
  destruct (compose_page_requires_fields sample_provider mock_lib (sample_session 1 25)
              "ann@example.com" "" "Hello" []) as (message & Hrun & Hmsg);
    [by right; left|].
  exists message. split; [done|]. rewrite Hmsg. reflexivity.
Defined.

(** ** The two transports stay apart *)

Lemma lift_log {A} (r : outcome A) (Q : event -> Prop) (log : list event) :
  exists added, (lift r log).2 = log ++ added /\ Forall Q added.
Proof. exists []. by rewrite app_nil_r. Qed.

Lemma fetch_loop_log (P : Provider) (L : EmailLib) (Q : event -> Prop)
    (email_ids : list string) :
  (forall i, Q (ImapFetch i)) ->
  forall acc log,
    exists added, (fetch_loop P L email_ids acc log).2 = log ++ added /\ Forall Q added.
Proof.
  intros HQ. induction email_ids as [|i email_ids IH]; intros acc log; simpl.
  - apply (ret_log acc).
  - apply bind_log; [by apply perform_log|].
    intros [status msg_data] log'. destruct (String.eqb status "OK"); [|apply IH].
    apply bind_log; [apply lift_log|]. intros new_emails log''. apply IH.
Qed.

Lemma fetch_loop_oauth_log (P : Provider) (Q : event -> Prop) (messages : list string) :
  (forall i, Q (ApiGet i)) ->
  forall acc log,
    exists added, (fetch_loop_oauth P messages acc log).2 = log ++ added /\ Forall Q added.
Proof.
  intros HQ. induction messages as [|i messages IH]; intros acc log; simpl.
  - apply (ret_log acc).
  - apply bind_log; [by apply perform_log|]. intros message log'. apply IH.
Qed.

Lemma fetch_emails_log (P : Provider) (L : EmailLib)
    (email_address app_password : string) (count : Z) (log : list event) :
  exists added,
    (fetch_emails P L email_address app_password count log).2 = log ++ added
    /\ Forall (fun ev => is_imap_event ev = true) added.
Proof.
  unfold fetch_emails. apply try_except_log.
  - do 3 (apply bind_log; [by apply perform_log|]; intros [] ?).
    apply bind_log; [by apply perform_log|]. intros [status email_ids] log4.
    destruct (String.eqb status "OK"); cbn [negb]; [|apply ret_log].
    apply bind_log; [by apply fetch_loop_log|]. intros emails log5.
    apply bind_log; [by apply perform_log|]. intros [] log6. apply ret_log.
  - intros e log'. destruct (exn_kind e); apply ret_log.
Qed.

Lemma send_email_log (P : Provider)
    (email_address app_password to subject body : string) (log : list event) :
  exists added,
    (send_email P email_address app_password to subject body log).2 = log ++ added
    /\ Forall (fun ev => is_smtp_event ev = true) added.
Proof.
  unfold send_email. apply try_except_log.
  - do 5 (apply bind_log; [by apply perform_log|]; intros [] ?). apply ret_log.
  - intros e log'. destruct (exn_kind e); apply ret_log.
Qed.

Lemma fetch_emails_oauth_log (P : Provider) (credentials : Credentials)
    (count : Z) (log : list event) :
  exists added,
    (fetch_emails_oauth P credentials count log).2 = log ++ added
    /\ Forall (fun ev => is_api_event ev = true) added.
Proof.
  unfold fetch_emails_oauth, get_gmail_service. apply try_except_log.
  - apply bind_log; [by apply perform_log|]. intros [] log1.
    apply bind_log; [by apply perform_log|]. intros results log2.
    destruct (default [] results) as [|m ms]; [apply ret_log|].
    apply bind_log; [by apply fetch_loop_oauth_log|]. intros. apply ret_log.
  - intros e log'. destruct (exn_kind e); apply ret_log.
Qed.

Lemma send_email_oauth_log (P : Provider) (L : EmailLib) (credentials : Credentials)
    (to subject body from_email : string) (log : list event) :
  exists added,
    (send_email_oauth P L credentials to subject body from_email log).2 = log ++ added
    /\ Forall (fun ev => is_api_event ev = true) added.
Proof.
  unfold send_email_oauth, get_gmail_service. apply try_except_log.
  - apply bind_log; [by apply perform_log|]. intros [] log1.
    apply bind_log; [apply lift_log|]. intros message_bytes log2.
    apply bind_log; [by apply perform_log|]. intros [] log3. apply ret_log.
  - intros e log'. destruct (exn_kind e); apply ret_log.
Qed.

Lemma Forall_log_impl (Q R : event -> Prop) (run log : list event) :
  (forall ev, Q ev -> R ev) ->
  (exists added, run = log ++ added /\ Forall Q added) ->
  exists added, run = log ++ added /\ Forall R added.
Proof.
  intros HQR (added & -> & HQ). exists added. split; [done|].
  by eapply Forall_impl.
Qed.

(** X20.  The session decides the transport for the whole page.  With an
    App Password session the inbox page only talks IMAP and the compose
    page only SMTP: the Gmail API is never called.  With an OAuth session
    both pages only call the Gmail API: no IMAP or SMTP call is made, so
    the password of the session is never sent. *)
Theorem pages_use_one_transport (P : Provider) (L : EmailLib) (st : SessionState)
    (log : list event) :
  (uses_oauth st = None ->
   (exists added, (inbox_page P L st log).2 = log ++ added
                  /\ Forall (fun ev => is_imap_event ev = true \/ is_ui_event ev = true) added)
   /\ (forall to_email subject body,
         exists added, (compose_page P L st to_email subject body log).2 = log ++ added
                       /\ Forall (fun ev => is_smtp_event ev = true \/ is_ui_event ev = true) added))
  /\ (is_Some (uses_oauth st) ->
      (exists added, (inbox_page P L st log).2 = log ++ added
                     /\ Forall (fun ev => is_api_event ev = true \/ is_ui_event ev = true) added)
      /\ (forall to_email subject body,
            exists added, (compose_page P L st to_email subject body log).2 = log ++ added
                          /\ Forall (fun ev => is_api_event ev = true \/ is_ui_event ev = true) added)).
Proof.
  split.
  - intros Hmethod. split.
    + unfold inbox_page, fetch_inbox. rewrite Hmethod.
      apply bind_log.
      { eapply Forall_log_impl; [|apply fetch_emails_log]. by left. }
      intros [[|m ms]|message] log'.
      * apply bind_log; [apply perform_log; by right|]. intros. apply ret_log.
      * destruct (paginate st (m :: ms)). apply ret_log.
      * apply bind_log; [apply perform_log; by right|]. intros. apply ret_log.
    + intros to_email subject body. unfold compose_page. rewrite Hmethod.
      destruct (negb (Py.truthy to_email)); [apply perform_log; by right|].
      destruct (negb (Py.truthy subject)); [apply perform_log; by right|].
      destruct (negb (Py.truthy body)); [apply perform_log; by right|].
      apply bind_log.
      { eapply Forall_log_impl; [|apply send_email_log]. by left. }
      intros [[] message] log'.
      * apply bind_log; [apply perform_log; by right|].
        intros. apply perform_log. by right.
      * apply perform_log. by right.
  - intros [creds_dict Hmethod]. split.
    + unfold inbox_page, fetch_inbox. rewrite Hmethod.
      apply bind_log.
      { destruct (credentials_from_dict creds_dict) as [credentials|].
        - eapply Forall_log_impl; [|apply fetch_emails_oauth_log]. by left.
        - exists []. by rewrite app_nil_r. }
      intros [[|m ms]|message] log'.
      * apply bind_log; [apply perform_log; by right|]. intros. apply ret_log.
      * destruct (paginate st (m :: ms)). apply ret_log.
      * apply bind_log; [apply perform_log; by right|]. intros. apply ret_log.
    + intros to_email subject body. unfold compose_page. rewrite Hmethod.
      destruct (negb (Py.truthy to_email)); [apply perform_log; by right|].
      destruct (negb (Py.truthy subject)); [apply perform_log; by right|].
      destruct (negb (Py.truthy body)); [apply perform_log; by right|].
      apply bind_log.
      { destruct (credentials_from_dict creds_dict) as [credentials|].
        - eapply Forall_log_impl; [|apply send_email_oauth_log]. by left.
        - exists []. by rewrite app_nil_r. }
      intros [[] message] log'.
      * apply bind_log; [apply perform_log; by right|].
        intros. apply perform_log. by right.
      * apply perform_log. by right.
Qed.

Lemma pages_use_one_transport_witness :
  let st := oauth_session (credentials_to_dict bare_credentials) in
  is_Some (uses_oauth st)
  /\ exists added,
       (inbox_page sample_provider mock_lib st []).2 = [] ++ added
       /\ Forall (fun ev => is_api_event ev = true \/ is_ui_event ev = true) added.
Proof.
  intros st.
  assert (is_Some (uses_oauth st)) as Hmethod by (by eexists).
  split; [done|].
  destruct (pages_use_one_transport sample_provider mock_lib st []) as [_ Hoauth].
  apply (Hoauth Hmethod).
Defined.

Lemma credentials_to_dict_nonempty (c : Credentials) : credentials_to_dict c <> ∅.
Proof.
  intros Hempty. destruct (credentials_to_dict_lookup c) as (Ht & _).
  rewrite Hempty in Ht. by rewrite lookup_empty in Ht.
Qed.

(** X21.  What the OAuth callback stores is what the pages use: a session
    whose method is 'oauth' and whose stored dictionary is the serialised
    form of a credential (with a list of scopes) makes the inbox page fetch
    with that very credential, and the compose page send with it, from the
    address of the session. *)
Theorem oauth_session_uses_stored_credentials (P : Provider) (L : EmailLib)
    (st : SessionState) (c : Credentials) (l : list string) :
  auth_method st = Some "oauth" ->
  oauth_credentials st = Some (credentials_to_dict c) ->
  scopes c = VList l ->
  fetch_inbox P L st = fetch_emails_oauth P c total_to_fetch
  /\ (forall to_email subject body log,
        to_email <> "" -> subject <> "" -> body <> "" ->
        compose_page P L st to_email subject body log
        = match send_email_oauth P L c to_email subject body (email st) log with
          | (Ret (true, message), log') =>
              (Ret tt, log' ++ [UiSuccess ("✅ " +:+ message); UiBalloons])
          | (Ret (false, message), log') =>
              (Ret tt, log' ++ [UiError ("❌ " +:+ message)])
          | (Raise e, log') => (Raise e, log')
          end).
Proof.
  intros Hmethod Hstored Hscopes.
  assert (uses_oauth st = Some (credentials_to_dict c)) as Huses.
  { unfold uses_oauth. rewrite Hmethod, Hstored. simpl.
    rewrite bool_decide_eq_false_2; [done|apply credentials_to_dict_nonempty]. }
  assert (credentials_from_dict (credentials_to_dict c) = Some c) as Hround.
  { destruct (credentials_to_dict_lookup c) as (Ht & Hr & Hu & Hi & Hsec & Hsc).
    rewrite Hscopes, serialised_scopes_list in Hsc.
    unfold credentials_from_dict, dict_get.
    rewrite Ht, Hr, Hu, Hi, Hsec, Hsc. simpl. rewrite <- Hscopes. by destruct c. }
  split.
  - unfold fetch_inbox. by rewrite Huses, Hround.
  - intros to_email subject body log Hto Hsubject Hbody.
    unfold compose_page. rewrite Huses, Hround.
    destruct to_email; [done|]. destruct subject; [done|]. destruct body; [done|].
    simpl. unfold bind, perform.
    destruct (send_email_oauth _ _ _ _ _ _ _ _) as [[[[] message]|e] log']; simpl;
      by rewrite <- ?app_assoc.
Qed.

Lemma oauth_session_uses_stored_credentials_witness :
  let st := oauth_session (credentials_to_dict bare_credentials) in
  (auth_method st = Some "oauth"
   /\ oauth_credentials st = Some (credentials_to_dict bare_credentials)
   /\ scopes bare_credentials = VList [])
  /\ fetch_inbox sample_provider mock_lib st
     = fetch_emails_oauth sample_provider bare_credentials total_to_fetch.
Proof.
  intros st. split; [done|].
  apply (oauth_session_uses_stored_credentials sample_provider mock_lib st
           bare_credentials [] eq_refl eq_refl eq_refl).
Defined.

(** ** Signing in with an App Password *)



(** ** The session store *)

Lemma set_default_union (key : string) (v : session_value)
    (ss : gmap string session_value) :
  set_default key v ss = ss ∪ {[key := v]}.
Proof.
  unfold set_default. apply map_eq. intros k.
  rewrite lookup_union.
  destruct (decide (key = k)) as [<-|Hne].
  - rewrite lookup_singleton_eq.
    destruct (ss !! key) eqn:Hk; rewrite ?lookup_insert_eq, ?Hk; done.
  - rewrite lookup_singleton_ne by done.
    destruct (ss !! key) eqn:Hk; rewrite ?lookup_insert_ne by done;
      by destruct (ss !! k).
Qed.

(** X23.  [init_session_state] only fills in what is missing: the store
    after it is the store before it completed by the eight default entries,
    so an entry that was there keeps its value, the eight keys are all
    present afterwards, and running it again changes nothing. *)
Theorem init_session_state_fills_in (ss : gmap string session_value) :
  init_session_state ss = ss ∪ session_defaults
  /\ (forall key v, ss !! key = Some v -> init_session_state ss !! key = Some v)
  /\ (forall key, is_Some (session_defaults !! key) ->
        is_Some (init_session_state ss !! key))
  /\ init_session_state (init_session_state ss) = init_session_state ss.
Proof.
  assert (forall s, init_session_state s = s ∪ session_defaults) as Hinit.
  { intros s. unfold init_session_state. rewrite !set_default_union.
    rewrite <- !(assoc_L (∪)). by f_equal. }
  split; [apply Hinit|]. split; [|split].
  - intros key v Hkey. rewrite Hinit, lookup_union, Hkey.
    by destruct (session_defaults !! key).
  - intros key [v Hkey]. rewrite Hinit, lookup_union, Hkey.
    destruct (ss !! key); by eexists.
  - rewrite !Hinit. rewrite <- (assoc_L (∪)). by f_equal.
Qed.

Lemma init_session_state_fills_in_witness :
  let ss : gmap string session_value := <["email_page" := SInt 3]> ∅ in
  init_session_state ss !! "email_page" = Some (SInt 3)
  /\ is_Some (init_session_state ss !! "emails_per_page").
Proof.
  intros ss.
  destruct (init_session_state_fills_in ss) as (_ & Hkeep & Hall & _).
  split; [by apply Hkeep|]. apply Hall. by eexists.
Defined.

(** ** The OAuth callback *)


